(** * TalentFlow: application lifecycle, candidate ranking and pipeline view

    A shallow embedding of the server routes ([server/routes.ts]), the record
    store ([server/storage.ts] with the tables of [shared/schema.ts]), the AI
    wrappers ([server/gemini.ts]) and the kanban grouping of
    [client/src/pages/pipeline.tsx], followed by the properties of the
    submit (resume upload) and status-transition workflows.

    Conventions.
    - A JavaScript exception is a value [Throw msg] of the type [result],
      [msg] being the message of the [Error] object thrown.
    - The database is a record of tables; a table is the list of its rows in
      the order a scan of the table returns them: an INSERT puts its row
      after the rows already there, and an UPDATE writes the new version of
      a row after all the others, so that an updated row leaves its place;
      what a transition does is therefore stated on the rows of the table,
      found by their id, not on their places.  The constraints declared in
      [shared/schema.ts]
      that the inserting operations can meet (unique e-mail, foreign keys,
      the 32-bit [integer] column) are checked by the inserts and raise.
      The database itself is taken to answer: a query fails through these
      constraints only.
    - Everything outside the repository (the PDF and DOCX parsers, the
      generative model, the clock and [gen_random_uuid()]) is read from an
      environment record [Env], one per request.
    - An upload is the part named [resume] of the form as multer reads it:
      the extension of its name and the number of its bytes, on which the
      file filter and the size limit of [routes.ts] decide, and the name
      under which it is stored; the bytes themselves are not modelled, only
      what the parsers make of the file.
    - A score is a finite JSON number, hence a rational; timestamps are
      milliseconds since the epoch, in [Z]. *)

From Stdlib Require Import ZArith QArith Qround Lqa String Ascii List Sorted Permutation Lia.
From stdpp Require Import base gmap strings list sorting.

Close Scope Q_scope.
Open Scope string_scope.
Open Scope list_scope.
Open Scope Z_scope.

(** ** JavaScript values used by the code *)

(** The outcome of a call that may throw. *)
Inductive result (A : Type) : Type :=
| Ok (a : A)
| Throw (msg : string).
Arguments Ok {A} a.
Arguments Throw {A} msg.

(** [!s] is true of a string exactly when it is empty; a request field that
    is absent ([undefined]) is represented by the empty string, which the
    code cannot tell apart from it. *)
Definition truthy (s : string) : bool := negb (String.eqb s "").

(** [s || null] on a string. *)
Definition or_null (s : string) : option string :=
  if truthy s then Some s else None.

(** [String.prototype.toLowerCase], on the ASCII letters (the only ones that
    can occur in the two extensions compared against). *)
Definition lower_ascii (c : ascii) : ascii :=
  let n := nat_of_ascii c in
  if ((65 <=? n)%nat && (n <=? 90)%nat)%bool then ascii_of_nat (n + 32) else c.

Fixpoint toLowerCase (s : string) : string :=
  match s with
  | EmptyString => EmptyString
  | String c s' => String (lower_ascii c) (toLowerCase s')
  end.

(** [`${error}`] on an [Error] object, that is [Error.prototype.toString]:
    the name, a colon and the message, or the one of the two that is not
    empty. *)
Definition Error_toString (name message : string) : string :=
  if negb (truthy name) then message
  else if negb (truthy message) then name
  else name +:+ ": " +:+ message.

(** [Math.round] on a finite number: the nearest integer, a tie going
    towards plus infinity.  A JSON number is a decimal literal, hence a
    rational. *)
Definition Math_round (x : Q) : Z := Qfloor (x + (1 # 2))%Q.

(** [Math.max(...xs)]; [None] stands for the [-Infinity] of the empty call. *)
Definition Math_max (xs : list Z) : option Z :=
  match xs with
  | [] => None
  | x :: xs' => Some (fold_left Z.max xs' x)
  end.

(** ** shared/schema.ts *)

Module Job.
Record t : Type := mk {
  id : string;
  title : string;
  department : string;
  location : string;
  employmentType : string;
  description : string;
  requirements : list string;
  responsibilities : string;
  salaryRange : option string;
  status : string;
  createdAt : Z
}.
End Job.

Module Candidate.
Record t : Type := mk {
  id : string;
  name : string;
  email : string;
  phone : option string;
  resumeUrl : option string;
  resumeText : option string;
  skills : option (list string);
  experience : option string;
  education : option string;
  linkedinUrl : option string;
  portfolioUrl : option string;
  createdAt : Z
}.
End Candidate.

(** server/gemini.ts, [interface MatchAnalysis]; stored in the [jsonb]
    column [ai_analysis]. *)
Module MatchAnalysis.
Record t : Type := mk {
  score : Q;
  matchedSkills : list string;
  missingSkills : list string;
  reasoning : string
}.
End MatchAnalysis.

(** server/gemini.ts, [interface ResumeAnalysis]. *)
Module ResumeAnalysis.
Record t : Type := mk {
  skills : list string;
  experience : string;
  education : string;
  summary : string
}.
End ResumeAnalysis.

Module Application.
Record t : Type := mk {
  id : string;
  jobId : string;
  candidateId : string;
  status : string;
  matchScore : option Z;
  aiAnalysis : option MatchAnalysis.t;
  appliedAt : Z;
  updatedAt : Z;
  notes : option string
}.

(** [.set({ status, updatedAt })] of an UPDATE: the two named columns are
    replaced, the others are copied. *)
Definition set_status_updatedAt (s : string) (now : Z) (a : t) : t :=
  mk (id a) (jobId a) (candidateId a) s (matchScore a) (aiAnalysis a)
     (appliedAt a) now (notes a).

(** The row with [updatedAt] replaced and every other column copied. *)
Definition set_updatedAt (now : Z) (a : t) : t :=
  mk (id a) (jobId a) (candidateId a) (status a) (matchScore a) (aiAnalysis a)
     (appliedAt a) now (notes a).

(** The columns a status transition is not meant to write. *)
Definition same_but_status_updatedAt (a a' : t) : Prop :=
  id a' = id a ∧ jobId a' = jobId a ∧ candidateId a' = candidateId a
  ∧ matchScore a' = matchScore a ∧ aiAnalysis a' = aiAnalysis a
  ∧ appliedAt a' = appliedAt a ∧ notes a' = notes a.
End Application.

Module Interview.
Record t : Type := mk {
  id : string;
  applicationId : string;
  scheduledAt : Z;
  duration : Z;
  interviewerName : option string;
  interviewerEmail : option string;
  meetingLink : option string;
  notes : option string;
  status : string;
  createdAt : Z
}.
End Interview.

(** [InsertCandidate]: the candidate columns without [id] and [createdAt]. *)
Module InsertCandidate.
Record t : Type := mk {
  name : string;
  email : string;
  phone : option string;
  resumeUrl : option string;
  resumeText : option string;
  skills : option (list string);
  experience : option string;
  education : option string
}.
End InsertCandidate.

(** [InsertApplication]: the application columns without [id], [appliedAt]
    and [updatedAt]; [notes] is not given by the only caller. *)
Module InsertApplication.
Record t : Type := mk {
  jobId : string;
  candidateId : string;
  status : string;
  matchScore : option Z;
  aiAnalysis : option MatchAnalysis.t
}.
End InsertApplication.

(** The database: one list of rows per table. *)
Module Store.
Record t : Type := mk {
  jobs : list Job.t;
  candidates : list Candidate.t;
  applications : list Application.t;
  interviews : list Interview.t
}.
End Store.

(** The six status literals named by the schema comment on
    [applications.status]. *)
Definition status_literals : list string :=
  ["applied"; "screening"; "interview"; "offer"; "hired"; "rejected"].

(** The range of a PostgreSQL [integer] column. *)
Definition int4_min : Z := -2147483648.
Definition int4_max : Z := 2147483647.
Definition in_int4 (z : Z) : bool := (int4_min <=? z)%Z && (z <=? int4_max)%Z.

(** ** Array.prototype.sort and ORDER BY *)

(** [insert_by cmp x l] puts [x] in front of the first element it does not
    have to follow. *)
Fixpoint insert_by {A : Type} (cmp : A → A → Z) (x : A) (l : list A) : list A :=
  match l with
  | [] => [x]
  | y :: l' => if (cmp x y <=? 0)%Z then x :: y :: l' else y :: insert_by cmp x l'
  end.

(** [Array.prototype.sort(cmp)]: the stable sort by a comparator whose sign
    orders two elements (a negative result puts the first argument first). *)
Definition sort_by {A : Type} (cmp : A → A → Z) (l : list A) : list A :=
  foldr (insert_by cmp) [] l.

(** [.orderBy(desc(column))]; rows with equal keys come in the order the
    scan of the table returns them, which an UPDATE changes. *)
Definition orderBy_desc {A : Type} (key : A → Z) (l : list A) : list A :=
  sort_by (λ a b, key b - key a) l.

(** [.orderBy(column)], ascending. *)
Definition orderBy_asc {A : Type} (key : A → Z) (l : list A) : list A :=
  sort_by (λ a b, key a - key b) l.

(** ** server/storage.ts: class DatabaseStorage *)

(** [with_candidates] and [with_applications] rebuild the database with one
    table replaced, as an INSERT or UPDATE on that table does. *)
Definition with_candidates (cs : list Candidate.t) (st : Store.t) : Store.t :=
  Store.mk (Store.jobs st) cs (Store.applications st) (Store.interviews st).

Definition with_applications (apps : list Application.t) (st : Store.t) : Store.t :=
  Store.mk (Store.jobs st) (Store.candidates st) apps (Store.interviews st).

Definition getAllJobs (st : Store.t) : list Job.t :=
  orderBy_desc Job.createdAt (Store.jobs st).

(** [const [job] = await db.select()...where(eq(jobs.id, id)); return job || undefined]. *)
Definition getJobById (id : string) (st : Store.t) : option Job.t :=
  head (filter (λ j, Job.id j = id) (Store.jobs st)).

Definition getAllCandidates (st : Store.t) : list Candidate.t :=
  orderBy_desc Candidate.createdAt (Store.candidates st).

Definition getCandidateById (id : string) (st : Store.t) : option Candidate.t :=
  head (filter (λ c, Candidate.id c = id) (Store.candidates st)).

Definition getCandidateByEmail (email : string) (st : Store.t) : option Candidate.t :=
  head (filter (λ c, Candidate.email c = email) (Store.candidates st)).

(** [db.insert(candidates).values(insertCandidate).returning()]: the row gets
    its [id] from [gen_random_uuid()] and [createdAt] from [defaultNow()];
    the columns the caller does not give are null.  The insert raises when
    the e-mail is already present ([email ... .unique()]). *)
Definition createCandidate (uuid : string) (now : Z) (ins : InsertCandidate.t)
    (st : Store.t) : result (Candidate.t * Store.t) :=
  if decide (InsertCandidate.email ins ∈ Candidate.email <$> Store.candidates st)
  then Throw "duplicate key value violates unique constraint candidates_email_unique"
  else
    let candidate :=
      Candidate.mk uuid (InsertCandidate.name ins) (InsertCandidate.email ins)
        (InsertCandidate.phone ins) (InsertCandidate.resumeUrl ins)
        (InsertCandidate.resumeText ins) (InsertCandidate.skills ins)
        (InsertCandidate.experience ins) (InsertCandidate.education ins)
        None None now in
    Ok (candidate, with_candidates (Store.candidates st ++ [candidate]) st).

Definition getAllApplications (st : Store.t) : list Application.t :=
  orderBy_desc Application.appliedAt (Store.applications st).

Definition getApplicationById (id : string) (st : Store.t) : option Application.t :=
  head (filter (λ a, Application.id a = id) (Store.applications st)).

Definition getApplicationsByJobId (jobId : string) (st : Store.t) : list Application.t :=
  filter (λ a, Application.jobId a = jobId) (Store.applications st).

Definition getApplicationsByCandidateId (candidateId : string) (st : Store.t)
    : list Application.t :=
  filter (λ a, Application.candidateId a = candidateId) (Store.applications st).

(** [db.insert(applications).values(insertApplication).returning()]:
    [appliedAt] and [updatedAt] both default to now and [notes] to null.  The
    insert raises when [jobId] or [candidateId] references no row, or when
    the score does not fit the [integer] column. *)
Definition createApplication (uuid : string) (now : Z) (ins : InsertApplication.t)
    (st : Store.t) : result (Application.t * Store.t) :=
  if negb (bool_decide (InsertApplication.jobId ins ∈ Job.id <$> Store.jobs st))
  then Throw "insert on table applications violates foreign key constraint on job_id"
  else if negb (bool_decide (InsertApplication.candidateId ins
                               ∈ Candidate.id <$> Store.candidates st))
  then Throw "insert on table applications violates foreign key constraint on candidate_id"
  else if negb (from_option in_int4 true (InsertApplication.matchScore ins))
  then Throw "value is out of range for type integer"
  else
    let application :=
      Application.mk uuid (InsertApplication.jobId ins)
        (InsertApplication.candidateId ins) (InsertApplication.status ins)
        (InsertApplication.matchScore ins) (InsertApplication.aiAnalysis ins)
        now now None in
    Ok (application, with_applications (Store.applications st ++ [application]) st).

(** [db.update(applications).set({ status, updatedAt: new Date() })
       .where(eq(applications.id, id)).returning()], then the first returned
    row or [undefined].  The rows the [where] selects are written anew
    after the others and returned. *)
Definition updateApplicationStatus (now : Z) (id : string) (status : string)
    (st : Store.t) : option Application.t * Store.t :=
  let others := filter (λ a, Application.id a ≠ id) (Store.applications st) in
  let returning :=
    Application.set_status_updatedAt status now
      <$> filter (λ a, Application.id a = id) (Store.applications st) in
  (head returning, with_applications (others ++ returning) st).

Definition getAllInterviews (st : Store.t) : list Interview.t :=
  orderBy_asc Interview.scheduledAt (Store.interviews st).

(** A candidate with its applications, each application with its job
    ([Candidate & { applications: Array<Application & { job: Job }> }]). *)
Module CandidateWithApplications.
Record t : Type := mk {
  candidate : Candidate.t;
  applications : list (Application.t * Job.t)
}.
End CandidateWithApplications.

(** The inner query of [getAllCandidatesWithApplications]: applications
    joined with their job, restricted to one candidate, newest first. *)
Definition candidateApplications (candidate : Candidate.t) (st : Store.t)
    : list (Application.t * Job.t) :=
  orderBy_desc (λ row, Application.appliedAt row.1)
    (flat_map
       (λ application,
          (λ job, (application, job))
            <$> filter (λ job, Job.id job = Application.jobId application) (Store.jobs st))
       (filter (λ application, Application.candidateId application = Candidate.id candidate)
          (Store.applications st))).

(** [Math.max(...c.applications.map((app) => app.matchScore || 0))]. *)
Definition maxScore (c : CandidateWithApplications.t) : option Z :=
  Math_max ((λ app, default 0 (Application.matchScore app.1))
              <$> CandidateWithApplications.applications c).

(** The comparator given to [candidatesWithApps.sort].  The last line is
    reached with two non-empty lists only, where both maxima are numbers. *)
Definition compareCandidates (a b : CandidateWithApplications.t) : Z :=
  let aMaxScore := maxScore a in
  let bMaxScore := maxScore b in
  let a_len := length (CandidateWithApplications.applications a) in
  let b_len := length (CandidateWithApplications.applications b) in
  if ((a_len =? 0)%nat && (b_len =? 0)%nat)%bool then
    Candidate.createdAt (CandidateWithApplications.candidate b)
    - Candidate.createdAt (CandidateWithApplications.candidate a)
  else if (a_len =? 0)%nat then 1
  else if (b_len =? 0)%nat then -1
  else match bMaxScore, aMaxScore with
       | Some bm, Some am => bm - am
       | _, _ => 0
       end.

Definition getAllCandidatesWithApplications (st : Store.t)
    : list CandidateWithApplications.t :=
  let candidatesData := orderBy_desc Candidate.createdAt (Store.candidates st) in
  let candidatesWithApps :=
    (λ candidate,
       CandidateWithApplications.mk candidate (candidateApplications candidate st))
      <$> candidatesData in
  sort_by compareCandidates candidatesWithApps.

(** ** The world outside the repository *)

Module Env.
Record t : Type := mk {
  (** [new Date()] and [defaultNow()] during the request *)
  now : Z;
  (** [gen_random_uuid()] for the candidate row and the application row *)
  uuid_candidate : string;
  uuid_application : string;
  (** [fs.readFileSync(filePath)] followed by [pdfParse], then [.text] *)
  pdfParse : string → result string;
  (** [mammoth.extractRawText({ path })], then [.value] *)
  mammoth_extractRawText : string → result string;
  (** [ai.models.generateContent] on a resume text, with the JSON answer
      parsed; a missing answer is one of the ways to throw *)
  generateResumeAnalysis : string → result ResumeAnalysis.t;
  (** the same for a match of skills and experience against the
      requirements and the description of a job *)
  generateMatchAnalysis :
    list string → string → list string → string → result MatchAnalysis.t
}.
End Env.

(** ** server/gemini.ts *)

(** What the [try] block throws is caught and thrown again as
    [new Error(`Failed to analyze resume: ${error}`)]; the caught value is
    taken to be an object of the class [Error] itself, whose name is Error. *)
Definition analyzeResume (env : Env.t) (resumeText : string) : result ResumeAnalysis.t :=
  match Env.generateResumeAnalysis env resumeText with
  | Ok data => Ok data
  | Throw error => Throw ("Failed to analyze resume: " +:+ Error_toString "Error" error)
  end.

Definition matchCandidateToJob (env : Env.t) (candidateSkills : list string)
    (candidateExperience : string) (jobRequirements : list string)
    (jobDescription : string) : result MatchAnalysis.t :=
  match Env.generateMatchAnalysis env candidateSkills candidateExperience
          jobRequirements jobDescription with
  | Ok data => Ok data
  | Throw error => Throw ("Failed to match candidate: " +:+ Error_toString "Error" error)
  end.

(** ** server/routes.ts *)

(** The part of the form named [resume], as multer reads and stores it.
    [extname] is [path.extname(file.originalname)], case as sent; the stored
    name is [uniqueSuffix + extname], whose own [path.extname] is [extname]
    again because the suffix (digits and a dash) has no dot; [size] is the
    number of bytes of the part. *)
Module UploadedFile.
Record t : Type := mk {
  uniqueSuffix : string;
  extname : string;
  size : Z
}.

Definition filename (f : t) : string := uniqueSuffix f +:+ extname f.
Definition path (f : t) : string := "uploads/" +:+ filename f.
End UploadedFile.

(** [req.body] and [req.file] of POST /api/candidates/upload. *)
Module UploadRequest.
Record t : Type := mk {
  name : string;
  email : string;
  phone : string;
  jobId : string;
  file : option UploadedFile.t
}.
End UploadRequest.

(** What a request is answered with: the object given to [res.json], or
    the HTML page that Express writes by itself for an error no handler of
    the application took ([message] is the message of that error; the page
    shows its stack, or outside development the words Internal Server
    Error). *)
Inductive Body : Type :=
| ErrorBody (error : string)
| UploadBody (candidate : Candidate.t) (application : Application.t)
    (analysis : ResumeAnalysis.t)
| ApplicationBody (application : Application.t)
| ErrorPage (message : string).

Module Response.
Record t : Type := mk {
  status : Z;
  body : Body
}.
End Response.

Definition allowedTypes : list string := [".pdf"; ".docx"].

(** [limits: { fileSize: 10 * 1024 * 1024 }]. *)
Definition fileSize : Z := 10 * 1024 * 1024.

(** multer's [fileFilter]: the lower-cased extension of the original name
    is one of the allowed types. *)
Definition fileFilter (f : UploadedFile.t) : bool :=
  bool_decide (toLowerCase (UploadedFile.extname f) ∈ allowedTypes).

(** [extractTextFromPDF]: any failure to read or parse is caught and the
    empty text returned. *)
Definition extractTextFromPDF (env : Env.t) (filePath : string) : string :=
  match Env.pdfParse env filePath with
  | Ok text => text
  | Throw _ => ""
  end.

(** [extractTextFromDOCX]: no handler, a failure propagates. *)
Definition extractTextFromDOCX (env : Env.t) (filePath : string) : result string :=
  Env.mammoth_extractRawText env filePath.

(** The [try] block that fills [resumeText]. *)
Definition extractResumeText (env : Env.t) (f : UploadedFile.t) : result string :=
  let ext := toLowerCase (UploadedFile.extname f) in
  if String.eqb ext ".pdf" then Ok (extractTextFromPDF env (UploadedFile.path f))
  else if String.eqb ext ".docx" then extractTextFromDOCX env (UploadedFile.path f)
  else Ok "".

(** The replacement used when [analyzeResume] throws. *)
Definition analysis_unavailable : ResumeAnalysis.t :=
  ResumeAnalysis.mk [] "Not analyzed" "Not analyzed" "AI analysis unavailable".

(** The handler of POST /api/candidates/upload, statement by statement.  An
    exception that reaches the outer [catch] answers 500 with its message;
    what was written to the database before it stays written. *)
Definition upload_handler (env : Env.t) (req : UploadRequest.t) (st : Store.t)
    : Response.t * Store.t :=
  match UploadRequest.file req with
  | None => (Response.mk 400 (ErrorBody "No resume file uploaded"), st)
  | Some file =>
    let name := UploadRequest.name req in
    let email := UploadRequest.email req in
    let phone := UploadRequest.phone req in
    let jobId := UploadRequest.jobId req in
    if (negb (truthy name) || negb (truthy email) || negb (truthy jobId))%bool
    then (Response.mk 400 (ErrorBody "Name, email, and job are required"), st)
    else
      let found := getCandidateByEmail email st in
      match extractResumeText env file with
      | Throw _ => (Response.mk 400 (ErrorBody "Failed to parse resume file"), st)
      | Ok resumeText =>
        let analysis :=
          match analyzeResume env resumeText with
          | Ok a => a
          | Throw _ => analysis_unavailable
          end in
        let created :=
          match found with
          | Some candidate => Ok (candidate, st)
          | None =>
            createCandidate (Env.uuid_candidate env) (Env.now env)
              (InsertCandidate.mk name email (or_null phone)
                 (Some ("/uploads/" +:+ UploadedFile.filename file))
                 (Some resumeText)
                 (Some (ResumeAnalysis.skills analysis))
                 (Some (ResumeAnalysis.experience analysis))
                 (Some (ResumeAnalysis.education analysis)))
              st
          end in
        match created with
        | Throw msg => (Response.mk 500 (ErrorBody msg), st)
        | Ok (candidate, st1) =>
          match getJobById jobId st1 with
          | None => (Response.mk 404 (ErrorBody "Job not found"), st1)
          | Some job =>
            let '(matchScore, aiAnalysis) :=
              match matchCandidateToJob env (ResumeAnalysis.skills analysis)
                      (ResumeAnalysis.experience analysis)
                      (Job.requirements job) (Job.description job) with
              | Ok matchResult =>
                (Some (Math_round (MatchAnalysis.score matchResult)), Some matchResult)
              | Throw _ => (None, None)
              end in
            match createApplication (Env.uuid_application env) (Env.now env)
                    (InsertApplication.mk jobId (Candidate.id candidate) "applied"
                       matchScore aiAnalysis)
                    st1 with
            | Throw msg => (Response.mk 500 (ErrorBody msg), st1)
            | Ok (application, st2) =>
              (Response.mk 201 (UploadBody candidate application analysis), st2)
            end
          end
        end
      end
  end.

(** POST /api/candidates/upload: [upload.single("resume")] first, then the
    handler.  multer asks [fileFilter] when it meets the part, and while it
    reads the part stops at the limit on its size: a part of [fileSize]
    bytes or more is refused with multer's error File too large.  Either
    error is passed to [next], not thrown inside the handler, so the [catch]
    of the handler never sees it; [registerRoutes] installs no error
    handler, and Express answers 500 with its own page.  Nothing was written
    to the database by then. *)
Definition submit (env : Env.t) (req : UploadRequest.t) (st : Store.t)
    : Response.t * Store.t :=
  match UploadRequest.file req with
  | Some file =>
    if fileFilter file then
      if (UploadedFile.size file <? fileSize)%Z then upload_handler env req st
      else (Response.mk 500 (ErrorPage "File too large"), st)
    else (Response.mk 500 (ErrorPage "Only PDF and DOCX files are allowed"), st)
  | None => upload_handler env req st
  end.

(** PATCH /api/applications/:id/status. *)
Definition transitionStatus (now : Z) (id : string) (status : string) (st : Store.t)
    : Response.t * Store.t :=
  if negb (truthy status)
  then (Response.mk 400 (ErrorBody "Status is required"), st)
  else
    match updateApplicationStatus now id status st with
    | (None, st') => (Response.mk 404 (ErrorBody "Application not found"), st')
    | (Some application, st') => (Response.mk 200 (ApplicationBody application), st')
    end.

(** A state-changing request of the lifecycle controller, and the database
    after a sequence of them run one after another. *)
Inductive Request : Type :=
| Submit (env : Env.t) (req : UploadRequest.t)
| TransitionStatus (now : Z) (id : string) (status : string).

Definition handle (r : Request) (st : Store.t) : Response.t * Store.t :=
  match r with
  | Submit env req => submit env req st
  | TransitionStatus now id status => transitionStatus now id status st
  end.

Definition run (rs : list Request) (st : Store.t) : Store.t :=
  foldl (λ s r, (handle r s).2) st rs.

(** The element of GET /api/applications/pipeline, and of the client's
    [interface ApplicationWithDetails]. *)
Module ApplicationWithDetails.
Record t : Type := mk {
  id : string;
  status : string;
  matchScore : option Z;
  appliedAt : Z;
  candidateName : string;
  candidateEmail : string;
  jobTitle : string;
  jobDepartment : string
}.
End ApplicationWithDetails.

(** [new Map(rows.map((r) => [r.id, r]))]: a later row replaces an earlier
    one with the same key. *)
Definition Map_by_id {A : Type} (id : A → string) (rows : list A) : gmap string A :=
  foldl (λ m r, <[id r := r]> m) ∅ rows.

(** [x?.field || fallback] on a string field. *)
Definition field_or {A : Type} (x : option A) (field : A → string) (fallback : string)
    : string :=
  match x with
  | Some r => if truthy (field r) then field r else fallback
  | None => fallback
  end.

(** GET /api/applications/pipeline. *)
Definition get_applications_pipeline (st : Store.t) : list ApplicationWithDetails.t :=
  let applications := getAllApplications st in
  let jobs := getAllJobs st in
  let candidates := getAllCandidates st in
  let jobsMap := Map_by_id Job.id jobs in
  let candidatesMap := Map_by_id Candidate.id candidates in
  (λ app,
     let job := jobsMap !! Application.jobId app in
     let candidate := candidatesMap !! Application.candidateId app in
     ApplicationWithDetails.mk (Application.id app) (Application.status app)
       (Application.matchScore app) (Application.appliedAt app)
       (field_or candidate Candidate.name "Unknown")
       (field_or candidate Candidate.email "")
       (field_or job Job.title "Unknown")
       (field_or job Job.department "Unknown"))
    <$> applications.

(** ** client/src/pages/pipeline.tsx *)

Module Column.
Record t : Type := mk {
  key : string;
  label : string;
  color : string
}.
End Column.

Definition statusColumns : list Column.t :=
  [ Column.mk "applied" "Applied"
      "bg-blue-100 text-blue-800 dark:bg-blue-950/30 dark:text-blue-400";
    Column.mk "screening" "Screening"
      "bg-yellow-100 text-yellow-800 dark:bg-yellow-950/30 dark:text-yellow-400";
    Column.mk "interview" "Interview"
      "bg-purple-100 text-purple-800 dark:bg-purple-950/30 dark:text-purple-400";
    Column.mk "offer" "Offer"
      "bg-green-100 text-green-800 dark:bg-green-950/30 dark:text-green-400";
    Column.mk "hired" "Hired"
      "bg-emerald-100 text-emerald-800 dark:bg-emerald-950/30 dark:text-emerald-400" ].

(** [statusColumns.reduce((acc, column) => { acc[column.key] =
      applications?.filter(app => app.status === column.key) || []; return acc; }, {})];
    [applications] is [undefined] until the query has answered. *)
Definition applicationsByStatus (applications : option (list ApplicationWithDetails.t))
    : gmap string (list ApplicationWithDetails.t) :=
  foldl
    (λ acc column,
       <[Column.key column :=
           match applications with
           | Some apps =>
             filter (λ app, ApplicationWithDetails.status app = Column.key column) apps
           | None => []
           end]> acc)
    ∅ statusColumns.

(** [applicationsByStatus[column.key]] as each column renders it; the key
    of a displayed column is always present. *)
Definition columnApplications (applications : option (list ApplicationWithDetails.t))
    (column : Column.t) : list ApplicationWithDetails.t :=
  default [] (applicationsByStatus applications !! Column.key column).


(** ** What the properties are stated with *)

(** The status is one of the six literals. *)
Definition valid_status (s : string) : Prop := s ∈ status_literals.

(** The statuses carried by the transition requests of a sequence. *)
Definition requested_statuses (rs : list Request) : list string :=
  flat_map (λ r, match r with
                 | Submit _ _ => []
                 | TransitionStatus _ _ status => [status]
                 end) rs.

(** A request that passed multer and the required-field check: a file of an
    allowed type and of less than [fileSize] bytes, and a name, an e-mail
    and a job id that are not empty. *)
Definition well_formed (req : UploadRequest.t) (file : UploadedFile.t) : Prop :=
  UploadRequest.file req = Some file
  ∧ fileFilter file = true
  ∧ UploadedFile.size file < fileSize
  ∧ truthy (UploadRequest.name req) = true
  ∧ truthy (UploadRequest.email req) = true
  ∧ truthy (UploadRequest.jobId req) = true.

(** The analysis the handler goes on with: the model's, or the placeholder
    when [analyzeResume] throws. *)
Definition analysis_used (env : Env.t) (resumeText : string) : ResumeAnalysis.t :=
  match analyzeResume env resumeText with
  | Ok a => a
  | Throw _ => analysis_unavailable
  end.

(** The call of [matchCandidateToJob] that the handler makes for a resume
    text and a job. *)
Definition match_of (env : Env.t) (resumeText : string) (job : Job.t)
    : result MatchAnalysis.t :=
  matchCandidateToJob env
    (ResumeAnalysis.skills (analysis_used env resumeText))
    (ResumeAnalysis.experience (analysis_used env resumeText))
    (Job.requirements job) (Job.description job).

(** The score this request receives, if the matching call answers one, is a
    score whose rounding the [integer] column can hold. *)
Definition score_storable (env : Env.t) (resumeText : string) (job : Job.t) : Prop :=
  ∀ m, match_of env resumeText job = Ok m →
       in_int4 (Math_round (MatchAnalysis.score m)) = true.

(** The score column of a freshly inserted application: empty together with
    the analysis, or the rounding of the score the analysis carries. *)
Definition fresh_score (env : Env.t) (a : Application.t) : Prop :=
  (Application.matchScore a = None ∧ Application.aiAnalysis a = None)
  ∨ ∃ m skills experience requirements description,
      Env.generateMatchAnalysis env skills experience requirements description = Ok m
      ∧ Application.aiAnalysis a = Some m
      ∧ Application.matchScore a = Some (Math_round (MatchAnalysis.score m))
      ∧ in_int4 (Math_round (MatchAnalysis.score m)) = true.




(** The candidate as the ranked list shows it. *)
Definition withApplications (st : Store.t) (candidate : Candidate.t)
    : CandidateWithApplications.t :=
  CandidateWithApplications.mk candidate (candidateApplications candidate st).

(** What the UPDATE makes of each row: the rows with the given id get the
    status and the time, the others are kept. *)
Definition update_row (now : Z) (id status : string) (a : Application.t)
    : Application.t :=
  if decide (Application.id a = id)
  then Application.set_status_updatedAt status now a else a.

(** The table of applications as the UPDATE leaves it: the rows with
    another id, then the rows with the given id written anew. *)
Definition rows_after_update (now : Z) (id status : string) (rows : list Application.t)
    : list Application.t :=
  filter (λ a, Application.id a ≠ id) rows
  ++ (Application.set_status_updatedAt status now
        <$> filter (λ a, Application.id a = id) rows).

(** What a repeated transition does to a row: [updatedAt] moves to the time
    of the call on the rows with the given id, nothing else changes. *)
Definition touch (now : Z) (id : string) (a : Application.t) : Application.t :=
  if decide (Application.id a = id) then Application.set_updatedAt now a else a.

(** Environments that differ from [env] in one capability. *)
Definition with_pdfParse (f : string → result string) (env : Env.t) : Env.t :=
  Env.mk (Env.now env) (Env.uuid_candidate env) (Env.uuid_application env) f
    (Env.mammoth_extractRawText env) (Env.generateResumeAnalysis env)
    (Env.generateMatchAnalysis env).

Definition with_generateResumeAnalysis (f : string → result ResumeAnalysis.t)
    (env : Env.t) : Env.t :=
  Env.mk (Env.now env) (Env.uuid_candidate env) (Env.uuid_application env)
    (Env.pdfParse env) (Env.mammoth_extractRawText env) f
    (Env.generateMatchAnalysis env).

(** The keys of the columns of the board. *)
Definition column_keys : list string := Column.key <$> statusColumns.

(** The value [applicationsByStatus] computes for one key. *)
Definition status_group (applications : option (list ApplicationWithDetails.t))
    (key : string) : list ApplicationWithDetails.t :=
  match applications with
  | Some apps => filter (λ app, ApplicationWithDetails.status app = key) apps
  | None => []
  end.



(** ** Sample data *)

Module Sample.
Definition J1 : Job.t :=
  Job.mk "J1" "Backend Engineer" "Engineering" "Remote" "Full-time"
    "Build the API" ["TypeScript"; "PostgreSQL"] "Own the services" None "active" 100.

Definition J2 : Job.t :=
  Job.mk "J2" "Data Analyst" "Analytics" "Pune" "Contract"
    "Analyse hiring data" ["SQL"] "Reports" None "active" 200.

Definition jobs_only : Store.t := Store.mk [J1; J2] [] [] [].

Definition pdf : UploadedFile.t := UploadedFile.mk "1700000000000-42" ".pdf" 20480.
Definition docx : UploadedFile.t := UploadedFile.mk "1700000000001-43" ".DOCX" 30720.

(** A PDF of twelve megabytes, and a text file. *)
Definition big_pdf : UploadedFile.t :=
  UploadedFile.mk "1700000000002-44" ".pdf" (12 * 1024 * 1024).
Definition txt : UploadedFile.t := UploadedFile.mk "1700000000003-45" ".txt" 512.

Definition jane (jobId : string) (file : UploadedFile.t) : UploadRequest.t :=
  UploadRequest.mk "Jane Doe" "jane@x.com" "" jobId (Some file).


Definition resume : ResumeAnalysis.t :=
  ResumeAnalysis.mk ["TypeScript"] "5 years" "BSc" "Backend developer".

Definition matched (score : Q) : MatchAnalysis.t :=
  MatchAnalysis.mk score ["TypeScript"] ["PostgreSQL"] "Partial match".

(** Every capability answers; the matching capability answers [score]. *)
Definition env_scoring (now : Z) (c a : string) (score : Q) : Env.t :=
  Env.mk now c a (λ _, Ok "resume text") (λ _, Ok "resume text")
    (λ _, Ok resume) (λ _ _ _ _, Ok (matched score)).

(** The parsers answer; the generative model is unreachable. *)
Definition env_ai_down (now : Z) (c a : string) : Env.t :=
  Env.mk now c a (λ _, Ok "resume text") (λ _, Ok "resume text")
    (λ _, Throw "fetch failed") (λ _ _ _ _, Throw "fetch failed").

(** The model answers; neither parser can read the file. *)
Definition env_unreadable (now : Z) (c a : string) (score : Q) : Env.t :=
  Env.mk now c a (λ _, Throw "Invalid PDF structure")
    (λ _, Throw "Could not find the body element")
    (λ _, Ok resume) (λ _ _ _ _, Ok (matched score)).

(** Jane's row, as her first submit creates it at time 1000. *)
Definition jane_row : Candidate.t :=
  Candidate.mk "c-1" "Jane Doe" "jane@x.com" None
    (Some "/uploads/1700000000000-42.pdf") (Some "resume text")
    (Some ["TypeScript"]) (Some "5 years") (Some "BSc") None None 1000.

(** Three candidates: Ada applied twice (scores 90 and 30), Bo applied
    twice (40 and no score), Cy never applied.  The table holds them in
    the order Cy, Bo, Ada. *)
Definition ada : Candidate.t :=
  Candidate.mk "c-a" "Ada" "ada@x.com" None None None None None None None None 200.
Definition bo : Candidate.t :=
  Candidate.mk "c-b" "Bo" "bo@x.com" None None None None None None None None 100.
Definition cy : Candidate.t :=
  Candidate.mk "c-c" "Cy" "cy@x.com" None None None None None None None None 300.

Definition three_candidates : Store.t :=
  Store.mk [J1; J2] [cy; bo; ada]
    [ Application.mk "a-1" "J1" "c-b" "applied" (Some 40) None 400 400 None;
      Application.mk "a-2" "J1" "c-a" "screening" (Some 90) None 500 600 None;
      Application.mk "a-3" "J2" "c-b" "applied" None None 700 700 None;
      Application.mk "a-4" "J2" "c-a" "rejected" (Some 30) None 800 900 None ]
    [].

(** The database after Jane applied to J1 with a score of 85. *)
Definition after_jane : Store.t :=
  (submit (env_scoring 1000 "c-1" "a-1" 85) (jane "J1" pdf) jobs_only).2.

End Sample.

(** ** The rest of server/storage.ts *)

(** [InsertJob]: the job columns without [id] and [createdAt]; [status] has
    a default and may be left out. *)
Module InsertJob.
Record t : Type := mk {
  title : string;
  department : string;
  location : string;
  employmentType : string;
  description : string;
  requirements : list string;
  responsibilities : string;
  salaryRange : option string;
  status : option string
}.
End InsertJob.

(** [db.insert(jobs).values(insertJob).returning()]: [status] defaults to
    active. *)
Definition createJob (uuid : string) (now : Z) (ins : InsertJob.t) (st : Store.t)
    : Job.t * Store.t :=
  let job :=
    Job.mk uuid (InsertJob.title ins) (InsertJob.department ins)
      (InsertJob.location ins) (InsertJob.employmentType ins)
      (InsertJob.description ins) (InsertJob.requirements ins)
      (InsertJob.responsibilities ins) (InsertJob.salaryRange ins)
      (default "active" (InsertJob.status ins)) now in
  (job, Store.mk (Store.jobs st ++ [job]) (Store.candidates st)
          (Store.applications st) (Store.interviews st)).

(** [InsertInterview]: the interview columns without [id] and [createdAt];
    [duration] and [status] have defaults. *)
Module InsertInterview.
Record t : Type := mk {
  applicationId : string;
  scheduledAt : Z;
  duration : option Z;
  interviewerName : option string;
  interviewerEmail : option string;
  meetingLink : option string;
  notes : option string;
  status : option string
}.
End InsertInterview.

(** [db.insert(interviews).values(insertInterview).returning()]: the
    duration defaults to 60 minutes and the status to scheduled; the insert
    raises when [applicationId] references no application, or when the
    duration does not fit its [integer] column. *)
Definition createInterview (uuid : string) (now : Z) (ins : InsertInterview.t)
    (st : Store.t) : result (Interview.t * Store.t) :=
  if negb (bool_decide (InsertInterview.applicationId ins
                          ∈ Application.id <$> Store.applications st))
  then Throw "insert on table interviews violates foreign key constraint on application_id"
  else if negb (from_option in_int4 true (InsertInterview.duration ins))
  then Throw "value is out of range for type integer"
  else
    let interview :=
      Interview.mk uuid (InsertInterview.applicationId ins)
        (InsertInterview.scheduledAt ins) (default 60 (InsertInterview.duration ins))
        (InsertInterview.interviewerName ins) (InsertInterview.interviewerEmail ins)
        (InsertInterview.meetingLink ins) (InsertInterview.notes ins)
        (default "scheduled" (InsertInterview.status ins)) now in
    Ok (interview,
        Store.mk (Store.jobs st) (Store.candidates st) (Store.applications st)
          (Store.interviews st ++ [interview])).

Definition getInterviewById (id : string) (st : Store.t) : option Interview.t :=
  head (filter (λ i, Interview.id i = id) (Store.interviews st)).

Definition getInterviewsByApplicationId (applicationId : string) (st : Store.t)
    : list Interview.t :=
  filter (λ i, Interview.applicationId i = applicationId) (Store.interviews st).

(** [where(and(eq(interviews.status, "scheduled"), gte(interviews.scheduledAt, now)))
       .orderBy(interviews.scheduledAt)], [now] being [new Date()]. *)
Definition getUpcomingInterviews (now : Z) (st : Store.t) : list Interview.t :=
  orderBy_asc Interview.scheduledAt
    (filter (λ i, Interview.status i = "scheduled" ∧ now ≤ Interview.scheduledAt i)
       (Store.interviews st)).

(** The object [getStats] returns. *)
Module Stats.
Record t : Type := mk {
  totalJobs : nat;
  activeJobs : nat;
  totalCandidates : nat;
  totalApplications : nat;
  interviewsScheduled : nat;
  offersExtended : nat
}.
End Stats.

Definition getStats (st : Store.t) : Stats.t :=
  let allJobs := getAllJobs st in
  let allCandidates := getAllCandidates st in
  let allApplications := getAllApplications st in
  let allInterviews := getAllInterviews st in
  Stats.mk
    (length allJobs)
    (length (filter (λ j, Job.status j = "active") allJobs))
    (length allCandidates)
    (length allApplications)
    (length (filter (λ i, Interview.status i = "scheduled") allInterviews))
    (length (filter (λ a, Application.status a = "offer") allApplications)).

(** ** The other routes of server/routes.ts *)

(** What a reading route answers: [res.json(body)] (200 unless a status was
    set) or [res.status(code).json({ error })]. *)
Inductive Reply (A : Type) : Type :=
| Json (status : Z) (body : A)
| Error (status : Z) (error : string).
Arguments Json {A} status body.
Arguments Error {A} status error.

(** GET /api/stats. *)
Definition get_stats (st : Store.t) : Reply Stats.t := Json 200 (getStats st).

(** GET /api/jobs/:id. *)
Definition get_job (id : string) (st : Store.t) : Reply Job.t :=
  match getJobById id st with
  | None => Error 404 "Job not found"
  | Some job => Json 200 job
  end.

(** POST /api/jobs; [parsed] is the outcome of [insertJobSchema.parse(req.body)],
    whose exception answers 400 with its message. *)
Definition post_jobs (parsed : result InsertJob.t) (uuid : string) (now : Z)
    (st : Store.t) : Reply Job.t * Store.t :=
  match parsed with
  | Throw msg => (Error 400 msg, st)
  | Ok validatedData =>
    let '(job, st') := createJob uuid now validatedData st in
    (Json 201 job, st')
  end.

(** GET /api/candidates/:id. *)
Definition get_candidate (id : string) (st : Store.t) : Reply Candidate.t :=
  match getCandidateById id st with
  | None => Error 404 "Candidate not found"
  | Some candidate => Json 200 candidate
  end.

(** The element of GET /api/applications/recent. *)
Module RecentApplication.
Record t : Type := mk {
  id : string;
  candidateName : string;
  jobTitle : string;
  status : string;
  matchScore : option Z;
  appliedAt : Z
}.
End RecentApplication.

(** GET /api/applications/recent: [applications.slice(0, 10).map(...)]. *)
Definition get_applications_recent (st : Store.t) : list RecentApplication.t :=
  let applications := getAllApplications st in
  let jobs := getAllJobs st in
  let candidates := getAllCandidates st in
  let jobsMap := Map_by_id Job.id jobs in
  let candidatesMap := Map_by_id Candidate.id candidates in
  (λ app,
     let job := jobsMap !! Application.jobId app in
     let candidate := candidatesMap !! Application.candidateId app in
     RecentApplication.mk (Application.id app)
       (field_or candidate Candidate.name "Unknown")
       (field_or job Job.title "Unknown")
       (Application.status app) (Application.matchScore app)
       (Application.appliedAt app))
    <$> take 10 applications.

(** GET /api/applications/:id: the application with its candidate and its
    job ([{ ...application, candidate, job }]). *)
Definition get_application (id : string) (st : Store.t)
    : Reply (Application.t * Candidate.t * Job.t) :=
  match getApplicationById id st with
  | None => Error 404 "Application not found"
  | Some application =>
    match getCandidateById (Application.candidateId application) st,
          getJobById (Application.jobId application) st with
    | Some candidate, Some job => Json 200 (application, candidate, job)
    | _, _ => Error 404 "Related data not found"
    end
  end.

(** The element of GET /api/interviews:
    [{ ...interview, candidateName, jobTitle }]. *)
Module InterviewWithDetails.
Record t : Type := mk {
  interview : Interview.t;
  candidateName : string;
  jobTitle : string
}.

Definition status (i : t) : string := Interview.status (interview i).
Definition scheduledAt (i : t) : Z := Interview.scheduledAt (interview i).
End InterviewWithDetails.

(** GET /api/interviews. *)
Definition get_interviews (st : Store.t) : list InterviewWithDetails.t :=
  let interviews := getAllInterviews st in
  let applications := getAllApplications st in
  let jobs := getAllJobs st in
  let candidates := getAllCandidates st in
  let appsMap := Map_by_id Application.id applications in
  let jobsMap := Map_by_id Job.id jobs in
  let candidatesMap := Map_by_id Candidate.id candidates in
  (λ interview,
     let app := appsMap !! Interview.applicationId interview in
     let job := app ≫= λ a, jobsMap !! Application.jobId a in
     let candidate := app ≫= λ a, candidatesMap !! Application.candidateId a in
     InterviewWithDetails.mk interview
       (field_or candidate Candidate.name "Unknown")
       (field_or job Job.title "Unknown"))
    <$> interviews.

(** ** client/src/pages/schedule.tsx *)

(** [interviews?.filter(i => i.status === "scheduled" && new Date(i.scheduledAt)
       >= new Date()).sort((a, b) => a - b by time) || []]; [now] is the
    reading of the clock, taken as one value for the whole filter. *)
Definition upcomingInterviews (now : Z) (interviews : option (list InterviewWithDetails.t))
    : list InterviewWithDetails.t :=
  match interviews with
  | Some l =>
    sort_by (λ a b, InterviewWithDetails.scheduledAt a - InterviewWithDetails.scheduledAt b)
      (filter (λ i, InterviewWithDetails.status i = "scheduled"
                    ∧ now ≤ InterviewWithDetails.scheduledAt i) l)
  | None => []
  end.

(** [interviews?.filter(i => i.status === "completed" || new Date(i.scheduledAt)
       < new Date()).sort(latest first) || []]. *)
Definition pastInterviews (now : Z) (interviews : option (list InterviewWithDetails.t))
    : list InterviewWithDetails.t :=
  match interviews with
  | Some l =>
    sort_by (λ a b, InterviewWithDetails.scheduledAt b - InterviewWithDetails.scheduledAt a)
      (filter (λ i, InterviewWithDetails.status i = "completed"
                    ∨ InterviewWithDetails.scheduledAt i < now) l)
  | None => []
  end.

(** ** client/src/pages/candidates.tsx *)

(** [candidate.applications.some((app) => app.status === "applied")]. *)
Definition hasApplied (c : CandidateWithApplications.t) : Prop :=
  Exists (λ app, Application.status app.1 = "applied")
    (CandidateWithApplications.applications c).

Definition candidate_id (c : CandidateWithApplications.t) : string :=
  Candidate.id (CandidateWithApplications.candidate c).

(** [handleCandidateSelection]: a copy of the set with the id added or
    deleted. *)
Definition handleCandidateSelection (candidateId : string) (checked : bool)
    (selectedCandidates : gset string) : gset string :=
  if checked then {[candidateId]} ∪ selectedCandidates
  else selectedCandidates ∖ {[candidateId]}.

(** The candidates [handleSelectAll] selects. *)
Definition eligibleCandidates (candidates : list CandidateWithApplications.t)
    : list CandidateWithApplications.t :=
  filter hasApplied candidates.

(** [handleSelectAll]: nothing while the list is loading; the empty set when
    as many ids are selected as there are candidates; the eligible
    candidates otherwise. *)
Definition handleSelectAll (candidates : option (list CandidateWithApplications.t))
    (selectedCandidates : gset string) : gset string :=
  match candidates with
  | None => selectedCandidates
  | Some cs =>
    if decide (size selectedCandidates = length cs) then ∅
    else list_to_set (candidate_id <$> eligibleCandidates cs)
  end.

(** [eligibleCandidatesCount]. *)
Definition eligibleCandidatesCount (candidates : option (list CandidateWithApplications.t))
    : nat :=
  match candidates with
  | Some cs => length (eligibleCandidates cs)
  | None => 0
  end.

(** The [checked] property of the select-all box. *)
Definition selectAll_checked (candidates : option (list CandidateWithApplications.t))
    (selectedCandidates : gset string) : bool :=
  bool_decide (size selectedCandidates = eligibleCandidatesCount candidates)
  && bool_decide (0 < eligibleCandidatesCount candidates)%nat.

(** The two nested [forEach] of [handleMoveToScreening]: the ids of the
    applied applications of the selected candidates, in the order of the
    list. *)
Definition screeningApplicationIds (candidates : list CandidateWithApplications.t)
    (selectedCandidates : gset string) : list string :=
  flat_map
    (λ candidate,
       if decide (candidate_id candidate ∈ selectedCandidates)
       then Application.id
              <$> filter (λ app, Application.status app = "applied")
                    (fst <$> CandidateWithApplications.applications candidate)
       else [])
    candidates.

(** [handleMoveToScreening]: the ids handed to the mutation, or nothing when
    the list is loading, the selection is empty or no id was collected. *)
Definition handleMoveToScreening (candidates : option (list CandidateWithApplications.t))
    (selectedCandidates : gset string) : option (list string) :=
  match candidates with
  | None => None
  | Some cs =>
    if decide (size selectedCandidates = 0%nat) then None
    else
      match screeningApplicationIds cs selectedCandidates with
      | [] => None
      | applicationIds => Some applicationIds
      end
  end.

(** [moveToScreeningMutation]: one PATCH with the status screening per id;
    [clock] is the time the server reads while it handles the request of an
    id. *)
Definition moveToScreening (clock : string → Z) (applicationIds : list string)
    : list Request :=
  (λ id, TransitionStatus (clock id) id "screening") <$> applicationIds.

(** ** client/src/pages/job-form.tsx *)

(** [addRequirement]: the requirements and the input field after the click;
    [trim] is [String.prototype.trim]. *)
Definition addRequirement (trim : string → string) (requirementInput : string)
    (requirements : list string) : list string * string :=
  if truthy (trim requirementInput)
  then (requirements ++ [trim requirementInput], "")
  else (requirements, requirementInput).

(** [currentRequirements.filter((_, i) => i !== index)]. *)
Definition removeRequirement (index : nat) (requirements : list string) : list string :=
  snd <$> filter (λ ix, ix.1 ≠ index) (zip (seq 0 (length requirements)) requirements).

(** ** client/src/pages/pipeline.tsx: drag and drop *)

(** The two pieces of state of the board. *)
Module DragState.
Record t : Type := mk {
  draggedApp : option string;
  dragOverColumn : option string
}.
End DragState.

Definition handleDragStart (appId : string) (s : DragState.t) : DragState.t :=
  DragState.mk (Some appId) (DragState.dragOverColumn s).

Definition handleDragOver (columnKey : string) (s : DragState.t) : DragState.t :=
  DragState.mk (DragState.draggedApp s) (Some columnKey).

Definition handleDragLeave (s : DragState.t) : DragState.t :=
  DragState.mk (DragState.draggedApp s) None.

(** [handleDrop]: the PATCH request sent, if a card is being dragged ([now]
    is the time the server reads when it handles it), and the state after. *)
Definition handleDrop (now : Z) (newStatus : string) (s : DragState.t)
    : option Request * DragState.t :=
  (match DragState.draggedApp s with
   | Some id => if truthy id then Some (TransitionStatus now id newStatus) else None
   | None => None
   end,
   DragState.mk None None).

(** The card of an application with its status replaced. *)
Definition card_with_status (status : string) (e : ApplicationWithDetails.t)
    : ApplicationWithDetails.t :=
  ApplicationWithDetails.mk (ApplicationWithDetails.id e) status
    (ApplicationWithDetails.matchScore e) (ApplicationWithDetails.appliedAt e)
    (ApplicationWithDetails.candidateName e) (ApplicationWithDetails.candidateEmail e)
    (ApplicationWithDetails.jobTitle e) (ApplicationWithDetails.jobDepartment e).

(** ** What the further properties are stated with *)

(** Every application references a job and a candidate of the database. *)
Definition references_resolve (st : Store.t) : Prop :=
  ∀ a, a ∈ Store.applications st →
       Application.jobId a ∈ Job.id <$> Store.jobs st
       ∧ Application.candidateId a ∈ Candidate.id <$> Store.candidates st.

(** The number of applications with a given status. *)
Definition count_status (status : string) (apps : list Application.t) : nat :=
  length (filter (λ a, Application.status a = status) apps).

(** The columns no request changes once the row is stored. *)
Definition fixed_columns (a : Application.t)
    : string * string * string * option Z * option MatchAnalysis.t * Z * option string :=
  (Application.id a, Application.jobId a, Application.candidateId a,
   Application.matchScore a, Application.aiAnalysis a, Application.appliedAt a,
   Application.notes a).

(** ** More sample data *)

Module Sample2.
Definition designer : InsertJob.t :=
  InsertJob.mk "Designer" "Design" "Remote" "Part-time" "Design the product"
    ["Figma"] "Own the design system" (Some "50-60k") None.

(** An interview for Jane's application, still to come at time 5000. *)
Definition screen_call : InsertInterview.t :=
  InsertInterview.mk "a-1" 9000 None (Some "Sam") None None None None.

Definition iv (id : string) (applicationId : string) (at_ : Z) (status : string)
    : Interview.t :=
  Interview.mk id applicationId at_ 60 None None None None status 0.

(** Jane's application with four interviews: one to come, one held, one
    cancelled but still to come, one scheduled whose time has passed. *)
Definition with_interviews : Store.t :=
  Store.mk (Store.jobs Sample.after_jane) (Store.candidates Sample.after_jane)
    (Store.applications Sample.after_jane)
    [ iv "i-1" "a-1" 9000 "scheduled"; iv "i-2" "a-1" 2000 "completed";
      iv "i-3" "a-1" 8000 "cancelled"; iv "i-4" "a-1" 3000 "scheduled" ].
End Sample2.

(** * Properties *)

(** ** Lookups and inserts of the record store *)

Section head_filter.
Context {A : Type} (P : A → Prop) `{!∀ x, Decision (P x)}.

Lemma head_filter_Some (l : list A) (x : A) :
  head (filter P l) = Some x → x ∈ l ∧ P x.
Proof.
  intros Hh. apply head_Some in Hh as [l' Hl].
  assert (x ∈ filter P l) as Hx by (rewrite Hl; left).
  apply list_elem_of_filter in Hx. tauto.
Qed.

Lemma head_filter_None (l : list A) :
  head (filter P l) = None → ∀ x, x ∈ l → ¬ P x.
Proof.
  intros Hh x Hx HP.
  assert (x ∈ filter P l) as Hin by (apply list_elem_of_filter; done).
  destruct (filter P l); [by apply not_elem_of_nil in Hin | done].
Qed.

End head_filter.

Lemma getJobById_Some (id : string) (st : Store.t) (job : Job.t) :
  getJobById id st = Some job → job ∈ Store.jobs st ∧ Job.id job = id.
Proof. apply (head_filter_Some (λ j, Job.id j = id)). Qed.

Lemma getCandidateByEmail_Some (email : string) (st : Store.t) (c : Candidate.t) :
  getCandidateByEmail email st = Some c →
  c ∈ Store.candidates st ∧ Candidate.email c = email.
Proof. apply (head_filter_Some (λ c, Candidate.email c = email)). Qed.

Lemma getCandidateByEmail_None (email : string) (st : Store.t) :
  getCandidateByEmail email st = None →
  email ∉ Candidate.email <$> Store.candidates st.
Proof.
  intros Hnone Hin. apply list_elem_of_fmap in Hin as (c & Hc & Hin).
  by apply (head_filter_None (λ c, Candidate.email c = email) _ Hnone c Hin).
Qed.

Lemma getCandidateByEmail_None_iff (email : string) (st : Store.t) :
  getCandidateByEmail email st = None ↔
  email ∉ Candidate.email <$> Store.candidates st.
Proof.
  split; [apply getCandidateByEmail_None |].
  intros Hnot. destruct (getCandidateByEmail email st) as [c|] eqn:Hc; [| done].
  apply getCandidateByEmail_Some in Hc as [Hin <-].
  destruct Hnot. by apply list_elem_of_fmap_2.
Qed.

(** A candidate whose e-mail is not in the table is inserted at its end,
    with the columns of the argument, a new id and the time of the insert. *)
Lemma createCandidate_new (uuid : string) (now : Z) (ins : InsertCandidate.t)
    (st : Store.t) :
  getCandidateByEmail (InsertCandidate.email ins) st = None →
  createCandidate uuid now ins st
  = Ok (Candidate.mk uuid (InsertCandidate.name ins) (InsertCandidate.email ins)
          (InsertCandidate.phone ins) (InsertCandidate.resumeUrl ins)
          (InsertCandidate.resumeText ins) (InsertCandidate.skills ins)
          (InsertCandidate.experience ins) (InsertCandidate.education ins)
          None None now,
        with_candidates
          (Store.candidates st
             ++ [Candidate.mk uuid (InsertCandidate.name ins) (InsertCandidate.email ins)
                   (InsertCandidate.phone ins) (InsertCandidate.resumeUrl ins)
                   (InsertCandidate.resumeText ins) (InsertCandidate.skills ins)
                   (InsertCandidate.experience ins) (InsertCandidate.education ins)
                   None None now]) st).
Proof.
  intros Hnone. apply getCandidateByEmail_None in Hnone.
  unfold createCandidate. by destruct (decide _) as [Hin | _].
Qed.

(** In a table without two rows of one key, the lookup of the key of a row
    finds that row. *)
Lemma head_filter_NoDup {A : Type} (f : A → string) (l : list A) (x : A) :
  NoDup (f <$> l) → x ∈ l → head (filter (λ y, f y = f x) l) = Some x.
Proof.
  induction l as [| y l IH]; intros Hnd Hx; [by apply not_elem_of_nil in Hx |].
  cbn in Hnd. apply NoDup_cons in Hnd as [Hy Hnd]. rewrite filter_cons.
  apply elem_of_cons in Hx as [-> | Hx].
  - by rewrite decide_True.
  - rewrite decide_False; [by apply IH |].
    intros Heq. apply Hy. rewrite Heq. by apply list_elem_of_fmap_2.
Qed.

(** An application whose references resolve and whose score fits is
    inserted at the end of its table. *)
Lemma createApplication_ok (uuid : string) (now : Z) (ins : InsertApplication.t)
    (st : Store.t) :
  InsertApplication.jobId ins ∈ Job.id <$> Store.jobs st →
  InsertApplication.candidateId ins ∈ Candidate.id <$> Store.candidates st →
  from_option in_int4 true (InsertApplication.matchScore ins) = true →
  createApplication uuid now ins st
    = Ok (Application.mk uuid (InsertApplication.jobId ins)
            (InsertApplication.candidateId ins) (InsertApplication.status ins)
            (InsertApplication.matchScore ins) (InsertApplication.aiAnalysis ins)
            now now None,
          with_applications
            (Store.applications st
               ++ [Application.mk uuid (InsertApplication.jobId ins)
                     (InsertApplication.candidateId ins) (InsertApplication.status ins)
                     (InsertApplication.matchScore ins)
                     (InsertApplication.aiAnalysis ins) now now None]) st).
Proof.
  intros Hjob Hcand Hscore. unfold createApplication.
  rewrite !bool_decide_eq_true_2 by done. by rewrite Hscore.
Qed.

(** Whatever [createApplication] inserts is the row built from its
    argument, and its score fits the column. *)
Lemma createApplication_inv (uuid : string) (now : Z) (ins : InsertApplication.t)
    (st st' : Store.t) (a : Application.t) :
  createApplication uuid now ins st = Ok (a, st') →
  st' = with_applications (Store.applications st ++ [a]) st
  ∧ Application.jobId a = InsertApplication.jobId ins
  ∧ Application.candidateId a = InsertApplication.candidateId ins
  ∧ Application.status a = InsertApplication.status ins
  ∧ Application.matchScore a = InsertApplication.matchScore ins
  ∧ Application.aiAnalysis a = InsertApplication.aiAnalysis ins
  ∧ from_option in_int4 true (InsertApplication.matchScore ins) = true.
Proof.
  unfold createApplication. intros H.
  repeat (match type of H with (if ?b then _ else _) = _ =>
            destruct b eqn:?; [discriminate |] end).
  inversion H; subst; clear H. repeat split; try done.
  by apply negb_false_iff.
Qed.

Lemma createCandidate_inv (uuid : string) (now : Z) (ins : InsertCandidate.t)
    (st st' : Store.t) (c : Candidate.t) :
  createCandidate uuid now ins st = Ok (c, st') →
  st' = with_candidates (Store.candidates st ++ [c]) st
  ∧ Candidate.email c = InsertCandidate.email ins
  ∧ InsertCandidate.email ins ∉ Candidate.email <$> Store.candidates st.
Proof.
  unfold createCandidate. destruct (decide _) as [| Hnot]; [discriminate |].
  intros H. inversion H; subst; clear H. done.
Qed.

(** ** What one submit can do to the database *)

Lemma matchCandidateToJob_Ok (env : Env.t) skills experience requirements description m :
  matchCandidateToJob env skills experience requirements description = Ok m →
  Env.generateMatchAnalysis env skills experience requirements description = Ok m.
Proof. unfold matchCandidateToJob. by destruct (Env.generateMatchAnalysis _ _ _ _ _). Qed.

(** A submit never touches jobs or interviews, appends at most one candidate
    (with the e-mail of the request, which was not in the table) and at most
    one application (with status applied). *)
Lemma submit_effect (env : Env.t) (req : UploadRequest.t) (st : Store.t) :
  Store.jobs (submit env req st).2 = Store.jobs st
  ∧ Store.interviews (submit env req st).2 = Store.interviews st
  ∧ (Store.candidates (submit env req st).2 = Store.candidates st
     ∨ ∃ c, Store.candidates (submit env req st).2 = Store.candidates st ++ [c]
            ∧ Candidate.email c = UploadRequest.email req
            ∧ UploadRequest.email req ∉ Candidate.email <$> Store.candidates st)
  ∧ (Store.applications (submit env req st).2 = Store.applications st
     ∨ ∃ a, Store.applications (submit env req st).2 = Store.applications st ++ [a]
            ∧ Application.status a = "applied"
            ∧ Application.jobId a = UploadRequest.jobId req
            ∧ fresh_score env a
            ∧ ∀ c, getCandidateByEmail (UploadRequest.email req) st = Some c →
                   Application.candidateId a = Candidate.id c).
Proof.
  unfold submit, upload_handler.
  repeat (case_match; simplify_eq/=; try by auto);
    repeat match goal with
    | H : createCandidate _ _ _ _ = Ok _ |- _ =>
      apply createCandidate_inv in H as (-> & ? & ?)
    | H : createApplication _ _ _ _ = Ok _ |- _ =>
      apply createApplication_inv in H as (-> & ? & ? & ? & ? & ? & ?)
    | H : matchCandidateToJob _ _ _ _ _ = Ok _ |- _ =>
      apply matchCandidateToJob_Ok in H
    end; simplify_eq/=;
    repeat split; try (by left); try (right; eexists; repeat split; eauto; fail).
  all: right; eexists; repeat split; eauto; unfold fresh_score; eauto 10.
  all: intros; simplify_eq; done.
Qed.

(** ** A well-formed submit whose job exists *)

(** Once the text is extracted and the job found, the handler answers 201
    whatever the two AI calls do, provided the score this request receives
    fits its column: the candidate is the one found, or a new row appended
    to the table, and an application is appended. *)
Lemma upload_ok
    (env : Env.t) (req : UploadRequest.t) (st : Store.t)
    (file : UploadedFile.t) (job : Job.t) (resumeText : string) :
  well_formed req file →
  getJobById (UploadRequest.jobId req) st = Some job →
  extractResumeText env file = Ok resumeText →
  score_storable env resumeText job →
  let candidate :=
    default
      (Candidate.mk (Env.uuid_candidate env) (UploadRequest.name req)
         (UploadRequest.email req) (or_null (UploadRequest.phone req))
         (Some ("/uploads/" +:+ UploadedFile.filename file)) (Some resumeText)
         (Some (ResumeAnalysis.skills (analysis_used env resumeText)))
         (Some (ResumeAnalysis.experience (analysis_used env resumeText)))
         (Some (ResumeAnalysis.education (analysis_used env resumeText)))
         None None (Env.now env))
      (getCandidateByEmail (UploadRequest.email req) st) in
  let application :=
    Application.mk (Env.uuid_application env) (UploadRequest.jobId req)
      (Candidate.id candidate) "applied"
      (match match_of env resumeText job with
       | Ok m => Some (Math_round (MatchAnalysis.score m))
       | Throw _ => None
       end)
      (match match_of env resumeText job with
       | Ok m => Some m
       | Throw _ => None
       end)
      (Env.now env) (Env.now env) None in
  submit env req st
  = (Response.mk 201 (UploadBody candidate application (analysis_used env resumeText)),
     Store.mk (Store.jobs st)
       (match getCandidateByEmail (UploadRequest.email req) st with
        | Some _ => Store.candidates st
        | None => Store.candidates st ++ [candidate]
        end)
       (Store.applications st ++ [application]) (Store.interviews st)).
Proof.
  intros (Hfile & Hfilter & Hsize & Hname & Hemail & HjobId) Hjob Hext Hfit.
  pose proof (getJobById_Some _ _ _ Hjob) as [Hjin Hjid].
  assert (UploadRequest.jobId req ∈ Job.id <$> Store.jobs st) as HjobFK.
  { rewrite <- Hjid. by apply list_elem_of_fmap_2. }
  apply Z.ltb_lt in Hsize. unfold score_storable, match_of in *.
  unfold submit, upload_handler.
  rewrite Hfile, Hfilter, Hsize, Hname, Hemail, HjobId, Hext.
  cbn [negb orb]. fold (analysis_used env resumeText).
  destruct (getCandidateByEmail (UploadRequest.email req) st) as [c|] eqn:Hc.
  - apply getCandidateByEmail_Some in Hc as [Hcin Hcem].
    rewrite Hjob.
    destruct (matchCandidateToJob env _ _ _ _) as [m | msg] eqn:Hm.
    + rewrite createApplication_ok; cbn; try done.
      * by apply list_elem_of_fmap_2.
      * by apply Hfit.
    + rewrite createApplication_ok; cbn; try done.
      by apply list_elem_of_fmap_2.
  - rewrite createCandidate_new by exact Hc.
    replace (getJobById (UploadRequest.jobId req) (with_candidates _ st))
      with (Some job) by (symmetry; exact Hjob).
    destruct (matchCandidateToJob env _ _ _ _) as [m | msg] eqn:Hm.
    + rewrite createApplication_ok; cbn; try done.
      * rewrite fmap_app. apply elem_of_app. right. cbn. left.
      * by apply Hfit.
    + rewrite createApplication_ok; cbn; try done.
      rewrite fmap_app. apply elem_of_app. right. cbn. left.
Qed.

(** ** C1: submit and the failures of the AI capability *)

(** C1, as amended: a well-formed submit (file of an allowed type and within
    the size limit, required fields present) whose job exists, whose text
    extraction does not throw and whose score, if the matching call of this
    request returns one, fits the integer column, answers 201 whatever the
    analysis and matching calls do; the candidate is the one found by
    e-mail, or a new row with the fields of the request, the extracted text
    and the fields of the analysis, appended to the table; the application
    is always appended; a thrown analysis is replaced by the placeholder,
    whose fields the new candidate then carries, and a thrown matching
    leaves [matchScore] and [aiAnalysis] null. *)
Theorem submit_succeeds_despite_ai_failure
    (env : Env.t) (req : UploadRequest.t) (st : Store.t)
    (file : UploadedFile.t) (job : Job.t) (resumeText : string) :
  well_formed req file →
  getJobById (UploadRequest.jobId req) st = Some job →
  extractResumeText env file = Ok resumeText →
  score_storable env resumeText job →
  ∃ candidate application,
    (submit env req st).1
      = Response.mk 201 (UploadBody candidate application (analysis_used env resumeText))
    ∧ Store.candidates (submit env req st).2
      = match getCandidateByEmail (UploadRequest.email req) st with
        | Some _ => Store.candidates st
        | None => Store.candidates st ++ [candidate]
        end
    ∧ from_option (λ c, candidate = c) True
        (getCandidateByEmail (UploadRequest.email req) st)
    ∧ (getCandidateByEmail (UploadRequest.email req) st = None →
       candidate
       = Candidate.mk (Env.uuid_candidate env) (UploadRequest.name req)
           (UploadRequest.email req) (or_null (UploadRequest.phone req))
           (Some ("/uploads/" +:+ UploadedFile.filename file)) (Some resumeText)
           (Some (ResumeAnalysis.skills (analysis_used env resumeText)))
           (Some (ResumeAnalysis.experience (analysis_used env resumeText)))
           (Some (ResumeAnalysis.education (analysis_used env resumeText)))
           None None (Env.now env))
    ∧ Candidate.email candidate = UploadRequest.email req
    ∧ Store.applications (submit env req st).2 = Store.applications st ++ [application]
    ∧ Application.jobId application = UploadRequest.jobId req
    ∧ Application.candidateId application = Candidate.id candidate
    ∧ Application.status application = "applied"
    ∧ (∀ msg, analyzeResume env resumeText = Throw msg →
         analysis_used env resumeText = analysis_unavailable
         ∧ (getCandidateByEmail (UploadRequest.email req) st = None →
            Candidate.skills candidate = Some []
            ∧ Candidate.experience candidate = Some "Not analyzed"
            ∧ Candidate.education candidate = Some "Not analyzed"))
    ∧ match match_of env resumeText job with
      | Ok m => Application.matchScore application = Some (Math_round (MatchAnalysis.score m))
                ∧ Application.aiAnalysis application = Some m
      | Throw _ => Application.matchScore application = None
                   ∧ Application.aiAnalysis application = None
      end.
Proof.
  intros Hwf Hjob Hext Hfit.
  rewrite (upload_ok env req st file job resumeText Hwf Hjob Hext Hfit).
  eexists _, _. split; [reflexivity |]. cbn [fst snd Store.candidates Store.applications].
  assert (∀ msg, analyzeResume env resumeText = Throw msg →
                 analysis_used env resumeText = analysis_unavailable) as Hplaceholder.
  { intros msg Hthrow. unfold analysis_used. by rewrite Hthrow. }
  destruct (getCandidateByEmail (UploadRequest.email req) st) as [c |] eqn:Hc.
  - apply getCandidateByEmail_Some in Hc as [_ Hcem].
    repeat split; try done; try (by eauto).
    by destruct (match_of env resumeText job).
  - repeat split; try done; try (by eauto).
    + by rewrite (Hplaceholder msg).
    + by rewrite (Hplaceholder msg).
    + by rewrite (Hplaceholder msg).
    + by destruct (match_of env resumeText job).
Qed.

Lemma submit_succeeds_despite_ai_failure_witness :
  ∃ candidate application,
    (submit (Sample.env_ai_down 1000 "c-1" "a-1") (Sample.jane "J1" Sample.docx)
       Sample.jobs_only).1
      = Response.mk 201 (UploadBody candidate application analysis_unavailable)
    ∧ Candidate.experience candidate = Some "Not analyzed"
    ∧ Application.matchScore application = None
    ∧ Application.aiAnalysis application = None.
Proof.
  assert (well_formed (Sample.jane "J1" Sample.docx) Sample.docx) as Hwf
    by (repeat split; reflexivity).
  assert (score_storable (Sample.env_ai_down 1000 "c-1" "a-1") "resume text" Sample.J1)
    as Hfit by (intros m H; discriminate H).
  destruct (submit_succeeds_despite_ai_failure
              (Sample.env_ai_down 1000 "c-1" "a-1") (Sample.jane "J1" Sample.docx)
              Sample.jobs_only Sample.docx Sample.J1 "resume text"
              Hwf eq_refl eq_refl Hfit)
    as (candidate & application & Hresp & _ & _ & _ & _ & _ & _ & _ & _ & Hana & Hscore).
  exists candidate, application. split; [exact Hresp |].
  split; [| exact Hscore].
  exact (proj1 (proj2 (proj2 (Hana _ eq_refl) eq_refl))).
Defined.

(** C1, as stated, fails: the job exists and the file is a DOCX, an allowed
    type, yet mammoth cannot read it; the request answers 400 and nothing is
    created, although both AI calls would have answered. *)
Lemma submit_unreadable_docx_fails :
  well_formed (Sample.jane "J1" Sample.docx) Sample.docx
  ∧ getJobById "J1" Sample.jobs_only = Some Sample.J1
  ∧ submit (Sample.env_unreadable 1000 "c-1" "a-1" 85) (Sample.jane "J1" Sample.docx)
      Sample.jobs_only
    = (Response.mk 400 (ErrorBody "Failed to parse resume file"), Sample.jobs_only)
  ∧ Store.candidates Sample.jobs_only = []
  ∧ Store.applications Sample.jobs_only = [].
Proof. repeat split; reflexivity. Qed.

(** ** C10: the candidate outlives a submit to an unknown job *)

Lemma head_filter_snoc {A : Type} (P : A → Prop) `{!∀ x, Decision (P x)}
    (l : list A) (x : A) :
  head (filter P l) = None → P x → head (filter P (l ++ [x])) = Some x.
Proof.
  intros Hnone HP. rewrite filter_app, (filter_cons P x []).
  destruct (decide (P x)); [| done].
  by destruct (filter P l).
Qed.




(** ** C9: which failures end the request *)

Lemma extractResumeText_pdf (env : Env.t) (file : UploadedFile.t) :
  toLowerCase (UploadedFile.extname file) = ".pdf" →
  extractResumeText env file = Ok (extractTextFromPDF env (UploadedFile.path file)).
Proof. intros Hpdf. unfold extractResumeText. by rewrite Hpdf. Qed.

(** C9, as amended: when mammoth cannot read a DOCX the request answers 400
    and the database is unchanged; when the PDF parser throws,
    [extractTextFromPDF] returns the empty text and the request goes on
    exactly as if the parser had answered with it; when the analysis throws
    the request goes on exactly as if the model had answered the
    placeholder; and a PDF submitted to an existing job is answered 201
    whatever its parser and the analysis do (the score this request
    receives fitting its column). *)
Theorem extraction_and_analysis_failures
    (env : Env.t) (req : UploadRequest.t) (st : Store.t) (file : UploadedFile.t) :
  well_formed req file →
  (∀ msg, toLowerCase (UploadedFile.extname file) = ".docx" →
     Env.mammoth_extractRawText env (UploadedFile.path file) = Throw msg →
     submit env req st
       = (Response.mk 400 (ErrorBody "Failed to parse resume file"), st))
  ∧ (∀ msg, toLowerCase (UploadedFile.extname file) = ".pdf" →
       Env.pdfParse env (UploadedFile.path file) = Throw msg →
       extractResumeText env file = Ok ""
       ∧ submit env req st = submit (with_pdfParse (λ _, Ok "") env) req st)
  ∧ (∀ resumeText msg,
       extractResumeText env file = Ok resumeText →
       analyzeResume env resumeText = Throw msg →
       submit env req st
         = submit (with_generateResumeAnalysis (λ _, Ok analysis_unavailable) env) req st)
  ∧ (∀ job, toLowerCase (UploadedFile.extname file) = ".pdf" →
       getJobById (UploadRequest.jobId req) st = Some job →
       score_storable env (extractTextFromPDF env (UploadedFile.path file)) job →
       Response.status (submit env req st).1 = 201
       ∧ length (Store.applications (submit env req st).2)
         = S (length (Store.applications st))).
Proof.
  intros Hwf. pose proof Hwf as (Hfile & Hfilter & Hsize & Hname & Hemail & HjobId).
  apply Z.ltb_lt in Hsize.
  split; [| split; [| split]].
  - intros msg Hdocx Hthrow.
    unfold submit, upload_handler.
    rewrite Hfile, Hfilter, Hsize, Hname, Hemail, HjobId.
    cbn [negb orb]. unfold extractResumeText, extractTextFromDOCX.
    by rewrite Hdocx, Hthrow.
  - intros msg Hpdf Hthrow. split.
    + unfold extractResumeText, extractTextFromPDF. by rewrite Hpdf, Hthrow.
    + unfold submit, upload_handler.
      rewrite Hfile, Hfilter, Hsize, Hname, Hemail, HjobId.
      cbn [negb orb]. unfold extractResumeText, extractTextFromPDF.
      rewrite Hpdf. cbn. by rewrite Hthrow.
  - intros resumeText msg Hext Hthrow.
    unfold submit, upload_handler.
    rewrite Hfile, Hfilter, Hsize, Hname, Hemail, HjobId.
    cbn [negb orb].
    replace (extractResumeText
               (with_generateResumeAnalysis (λ _, Ok analysis_unavailable) env) file)
      with (extractResumeText env file) by reflexivity.
    rewrite Hext, Hthrow. reflexivity.
  - intros job Hpdf Hjob Hfit.
    rewrite (upload_ok env req st file job _ Hwf Hjob
               (extractResumeText_pdf env file Hpdf) Hfit).
    split; [done |]. cbn. rewrite length_app. cbn. lia.
Qed.

Lemma extraction_and_analysis_failures_witness :
  submit (Sample.env_unreadable 1000 "c-1" "a-1" 85) (Sample.jane "J1" Sample.docx)
    Sample.jobs_only
  = (Response.mk 400 (ErrorBody "Failed to parse resume file"), Sample.jobs_only).
Proof.
  assert (well_formed (Sample.jane "J1" Sample.docx) Sample.docx) as Hwf
    by (repeat split; reflexivity).
  exact (proj1 (extraction_and_analysis_failures
                  (Sample.env_unreadable 1000 "c-1" "a-1" 85)
                  (Sample.jane "J1" Sample.docx) Sample.jobs_only Sample.docx Hwf)
           "Could not find the body element" eq_refl eq_refl).
Defined.

(** C9, as stated, fails for one of the two formats: the PDF parser throws,
    yet the request answers 201 and an application is created, the text of
    the resume being empty. *)
Lemma submit_unreadable_pdf_succeeds :
  well_formed (Sample.jane "J1" Sample.pdf) Sample.pdf
  ∧ Env.pdfParse (Sample.env_unreadable 1000 "c-1" "a-1" 85)
      (UploadedFile.path Sample.pdf) = Throw "Invalid PDF structure"
  ∧ Response.status
      (submit (Sample.env_unreadable 1000 "c-1" "a-1" 85) (Sample.jane "J1" Sample.pdf)
         Sample.jobs_only).1 = 201
  ∧ Application.jobId
      <$> Store.applications
            (submit (Sample.env_unreadable 1000 "c-1" "a-1" 85)
               (Sample.jane "J1" Sample.pdf) Sample.jobs_only).2 = ["J1"]
  ∧ Candidate.resumeText
      <$> Store.candidates
            (submit (Sample.env_unreadable 1000 "c-1" "a-1" 85)
               (Sample.jane "J1" Sample.pdf) Sample.jobs_only).2 = [Some ""].
Proof. repeat split; reflexivity. Qed.

(** ** C2: the stored match score *)




(** ** C7: one candidate per e-mail *)

Lemma transitionStatus_effect (now : Z) (id status : string) (st : Store.t) :
  Store.jobs (transitionStatus now id status st).2 = Store.jobs st
  ∧ Store.candidates (transitionStatus now id status st).2 = Store.candidates st
  ∧ Store.interviews (transitionStatus now id status st).2 = Store.interviews st.
Proof.
  unfold transitionStatus. destruct (negb (truthy status)); [done |].
  unfold updateApplicationStatus. by case_match.
Qed.

Lemma run_cons (r : Request) (rs : list Request) (st : Store.t) :
  run (r :: rs) st = run rs (handle r st).2.
Proof. reflexivity. Qed.





(** ** The status transition *)

Section filter_all_none.
Context {A : Type} (P : A → Prop) `{!∀ x, Decision (P x)}.

Lemma filter_all (l : list A) : Forall P l → filter P l = l.
Proof.
  induction 1 as [| x l Hx _ IH]; [done |].
  rewrite filter_cons. destruct (decide (P x)); [by rewrite IH | done].
Qed.

Lemma filter_none (l : list A) : Forall (λ x, ¬ P x) l → filter P l = [].
Proof.
  induction 1 as [| x l Hx _ IH]; [done |].
  rewrite filter_cons. by destruct (decide (P x)).
Qed.

Lemma Forall_filter_holds (l : list A) : Forall P (filter P l).
Proof. apply Forall_forall. intros x Hx. by apply list_elem_of_filter in Hx as [? _]. Qed.
End filter_all_none.

Lemma fmap_ext_in {A B : Type} (f g : A → B) (l : list A) :
  (∀ x, x ∈ l → f x = g x) → f <$> l = g <$> l.
Proof.
  intros Hfg. apply list_fmap_ext. intros i x Hx. apply Hfg.
  by apply list_elem_of_lookup_2 in Hx.
Qed.

Lemma head_fmap {A B : Type} (f : A → B) (l : list A) : head (f <$> l) = f <$> head l.
Proof. by destruct l. Qed.

(** The table the UPDATE leaves holds the rows of before, each as
    [update_row] makes it, up to their order. *)
Lemma rows_after_update_Permutation (now : Z) (id status : string)
    (l : list Application.t) :
  rows_after_update now id status l ≡ₚ update_row now id status <$> l.
Proof.
  unfold rows_after_update. induction l as [| a l IH]; [done |].
  rewrite fmap_cons, !filter_cons.
  destruct (decide (Application.id a = id)) as [Heq | Hne];
    destruct (decide (Application.id a ≠ id)) as [Hne' | Heq']; try done.
  - replace (update_row now id status a)
      with (Application.set_status_updatedAt status now a)
      by (unfold update_row; by destruct (decide _)).
    rewrite fmap_cons, <- Permutation_middle. by rewrite IH.
  - replace (update_row now id status a) with a
      by (unfold update_row; by destruct (decide _)).
    cbn. by rewrite IH.
Qed.

Lemma rows_after_update_no_match (now : Z) (id status : string) (l : list Application.t) :
  id ∉ Application.id <$> l → rows_after_update now id status l = l.
Proof.
  intros Hnot. unfold rows_after_update.
  assert (Forall (λ a, Application.id a ≠ id) l) as Hall.
  { apply Forall_forall. intros a Ha Heq. apply Hnot. rewrite <- Heq.
    by apply list_elem_of_fmap_2. }
  rewrite (filter_all _ l Hall), (filter_none (λ a, Application.id a = id) l).
  - apply app_nil_r.
  - eapply Forall_impl; [exact Hall |]. done.
Qed.

(** After the UPDATE the rows with the given id are the rows that had it,
    written anew; the rows with another id are as they were. *)
Lemma rows_after_update_matching (now : Z) (id status : string) (l : list Application.t) :
  filter (λ a, Application.id a = id) (rows_after_update now id status l)
  = Application.set_status_updatedAt status now <$> filter (λ a, Application.id a = id) l.
Proof.
  unfold rows_after_update. rewrite filter_app.
  rewrite (filter_none (λ a, Application.id a = id)
             (filter (λ a, Application.id a ≠ id) l)).
  - rewrite filter_all; [done |].
    apply Forall_fmap, Forall_forall. intros a Ha.
    by apply list_elem_of_filter in Ha as [? _].
  - eapply Forall_impl; [apply Forall_filter_holds |]. cbn. tauto.
Qed.

Lemma rows_after_update_others (now : Z) (id status : string) (l : list Application.t) :
  filter (λ a, Application.id a ≠ id) (rows_after_update now id status l)
  = filter (λ a, Application.id a ≠ id) l.
Proof.
  unfold rows_after_update. rewrite filter_app.
  rewrite (filter_none (λ a, Application.id a ≠ id)
             (Application.set_status_updatedAt status now <$> _)).
  - rewrite app_nil_r. apply filter_all, Forall_filter_holds.
  - apply Forall_fmap, Forall_forall. intros a Ha.
    apply list_elem_of_filter in Ha as [Hid _]. cbn. tauto.
Qed.

Lemma updateApplicationStatus_store (now : Z) (id status : string) (st : Store.t) :
  (updateApplicationStatus now id status st).2
  = with_applications (rows_after_update now id status (Store.applications st)) st.
Proof. reflexivity. Qed.

(** The UPDATE returns a row exactly when the id is in the table, and the
    row it returns is the first one with that id, updated. *)
Lemma updateApplicationStatus_returning (now : Z) (id status : string) (st : Store.t) :
  (updateApplicationStatus now id status st).1
  = Application.set_status_updatedAt status now <$> getApplicationById id st.
Proof. unfold updateApplicationStatus, getApplicationById. cbn [fst]. apply head_fmap. Qed.

Lemma valid_status_truthy (s : string) : valid_status s → truthy s = true.
Proof.
  unfold valid_status, status_literals. intros H.
  repeat (apply elem_of_cons in H as [-> | H]; [reflexivity |]).
  by apply not_elem_of_nil in H.
Qed.

(** The database a transition leaves: the table of applications as the
    UPDATE leaves it when a status is given, the database as it was
    otherwise. *)
Lemma transitionStatus_store (now : Z) (id status : string) (st : Store.t) :
  (transitionStatus now id status st).2
  = if truthy status
    then with_applications (rows_after_update now id status (Store.applications st)) st
    else st.
Proof.
  unfold transitionStatus. destruct (truthy status); cbn [negb]; [| done].
  pose proof (updateApplicationStatus_store now id status st) as Hst.
  by destruct (updateApplicationStatus now id status st) as [[r |] st'].
Qed.

(** The rows after a transition are the rows of before, each as
    [update_row] makes it when a status is given, up to their order. *)
Lemma transitionStatus_rows (now : Z) (id status : string) (st : Store.t) :
  Store.applications (transitionStatus now id status st).2
  ≡ₚ (if truthy status then update_row now id status <$> Store.applications st
      else Store.applications st).
Proof.
  rewrite transitionStatus_store. destruct (truthy status); [| done].
  apply rows_after_update_Permutation.
Qed.

(** A transition with a non-empty status on an id of the table answers 200
    with the updated row. *)
Lemma transitionStatus_found (now : Z) (id status : string) (st : Store.t)
    (a : Application.t) :
  truthy status = true →
  getApplicationById id st = Some a →
  transitionStatus now id status st
  = (Response.mk 200 (ApplicationBody (Application.set_status_updatedAt status now a)),
     with_applications (rows_after_update now id status (Store.applications st)) st).
Proof.
  intros Htruthy Hfound. unfold transitionStatus. rewrite Htruthy. cbn [negb].
  pose proof (updateApplicationStatus_returning now id status st) as Hret.
  pose proof (updateApplicationStatus_store now id status st) as Hst.
  destruct (updateApplicationStatus now id status st) as [r st'].
  cbn in Hret, Hst. subst. by rewrite Hfound.
Qed.

Lemma getApplicationById_updated (now : Z) (id status : string) (st : Store.t)
    (a : Application.t) :
  getApplicationById id st = Some a →
  getApplicationById id
    (with_applications (rows_after_update now id status (Store.applications st)) st)
  = Some (Application.set_status_updatedAt status now a).
Proof.
  intros Hfound. unfold getApplicationById in *. cbn [with_applications Store.applications].
  by rewrite rows_after_update_matching, head_fmap, Hfound.
Qed.

(** A second UPDATE with the same status moves [updatedAt] on the rows with
    the id and nothing else, and leaves what it alone would have left. *)
Lemma rows_after_update_twice (now1 now2 : Z) (id status : string)
    (l : list Application.t) :
  rows_after_update now2 id status (rows_after_update now1 id status l)
  = touch now2 id <$> rows_after_update now1 id status l.
Proof.
  unfold rows_after_update at 1.
  rewrite rows_after_update_matching, rows_after_update_others.
  unfold rows_after_update. rewrite fmap_app. f_equal.
  - symmetry. rewrite <- (list_fmap_id (filter _ l)) at 2. apply fmap_ext_in.
    intros a Ha. apply list_elem_of_filter in Ha as [Hne _].
    unfold touch. by destruct (decide (Application.id a = id)).
  - rewrite <- !list_fmap_compose. apply fmap_ext_in.
    intros a Ha. apply list_elem_of_filter in Ha as [Heq _]. cbn.
    unfold touch. cbn. by destruct (decide (Application.id a = id)).
Qed.

Lemma rows_after_update_absorbs (now1 now2 : Z) (id status : string)
    (l : list Application.t) :
  rows_after_update now2 id status (rows_after_update now1 id status l)
  = rows_after_update now2 id status l.
Proof.
  unfold rows_after_update at 1.
  rewrite rows_after_update_matching, rows_after_update_others.
  unfold rows_after_update. f_equal. by rewrite <- list_fmap_compose.
Qed.

(** ** C6: what a transition leaves alone *)

Lemma update_row_frame (now : Z) (id status : string) (a : Application.t) :
  Application.same_but_status_updatedAt a (update_row now id status a)
  ∧ (Application.id a ≠ id → update_row now id status a = a).
Proof.
  unfold update_row. destruct (decide (Application.id a = id)); split; done.
Qed.

(** C6: whatever the id and the status of the request, the tables of jobs,
    candidates and interviews are the same after the transition; the rows
    of the table of applications can be matched one to one with the rows of
    before, each with its id, job, candidate, score, analysis, application
    date and notes unchanged, and unchanged altogether when its id is
    another; no row is added or removed, and the rows with another id are
    the same rows in the same order. *)
Theorem transitionStatus_frame (now : Z) (id status : string) (st : Store.t) :
  Store.jobs (transitionStatus now id status st).2 = Store.jobs st
  ∧ Store.candidates (transitionStatus now id status st).2 = Store.candidates st
  ∧ Store.interviews (transitionStatus now id status st).2 = Store.interviews st
  ∧ (∃ rows,
       rows ≡ₚ Store.applications (transitionStatus now id status st).2
       ∧ Forall2
           (λ a a', Application.same_but_status_updatedAt a a'
                    ∧ (Application.id a ≠ id → a' = a))
           (Store.applications st) rows)
  ∧ filter (λ a, Application.id a ≠ id)
      (Store.applications (transitionStatus now id status st).2)
    = filter (λ a, Application.id a ≠ id) (Store.applications st).
Proof.
  destruct (transitionStatus_effect now id status st) as (Hj & Hc & Hi).
  split; [done |]. split; [done |]. split; [done |]. split.
  - eexists. split; [symmetry; apply transitionStatus_rows |].
    destruct (truthy status).
    + apply Forall2_fmap_r, Forall_Forall2_diag, Forall_forall.
      intros a _. apply update_row_frame.
    + apply Forall_Forall2_diag, Forall_forall. intros a _. by split.
  - rewrite transitionStatus_store. destruct (truthy status); [| done].
    apply rows_after_update_others.
Qed.

Lemma transitionStatus_frame_witness :
  Store.interviews (transitionStatus 3000 "a-1" "rejected" Sample.after_jane).2 = []
  ∧ Application.matchScore
      <$> Store.applications (transitionStatus 3000 "a-1" "rejected" Sample.after_jane).2
    = [Some 85].
Proof.
  destruct (transitionStatus_frame 3000 "a-1" "rejected" Sample.after_jane)
    as (_ & _ & Hi & Happs).
  split; [exact Hi | reflexivity].
Defined.

(** ** C5: every literal is accepted, and what a repetition changes *)

(** C5, as amended: on an id of the table each of the six literals is
    accepted, from any current status (200, the returned and the stored row
    carry the requested status); a second request with the same status is
    accepted too and changes nothing but [updatedAt] of the rows with that
    id, which now holds the time of the second request; at the same clock
    reading it changes nothing at all; and two requests leave the database
    the second alone would have left. *)
Theorem transitionStatus_accepts_and_repeats
    (now1 now2 : Z) (id status : string) (st : Store.t) :
  valid_status status →
  is_Some (getApplicationById id st) →
  ∃ a1,
    (transitionStatus now1 id status st).1 = Response.mk 200 (ApplicationBody a1)
    ∧ Application.status a1 = status
    ∧ getApplicationById id (transitionStatus now1 id status st).2 = Some a1
    ∧ transitionStatus now2 id status (transitionStatus now1 id status st).2
      = (Response.mk 200 (ApplicationBody (Application.set_updatedAt now2 a1)),
         with_applications
           (touch now2 id <$> Store.applications (transitionStatus now1 id status st).2)
           (transitionStatus now1 id status st).2)
    ∧ (now2 = now1 →
       transitionStatus now2 id status (transitionStatus now1 id status st).2
       = ((transitionStatus now1 id status st).1, (transitionStatus now1 id status st).2))
    ∧ (transitionStatus now2 id status (transitionStatus now1 id status st).2).2
      = (transitionStatus now2 id status st).2.
Proof.
  intros Hvalid [a Hfound]. apply valid_status_truthy in Hvalid.
  rewrite (transitionStatus_found now1 id status st a Hvalid Hfound).
  rewrite (transitionStatus_found now2 id status st a Hvalid Hfound).
  pose proof (getApplicationById_updated now1 id status st a Hfound) as Hfound1.
  cbn [fst snd].
  rewrite (transitionStatus_found now2 id status _ _ Hvalid Hfound1).
  cbn [fst snd with_applications Store.applications Store.jobs Store.candidates
       Store.interviews].
  exists (Application.set_status_updatedAt status now1 a).
  split; [done |]. split; [done |]. split; [done |]. split; [| split].
  - by rewrite rows_after_update_twice.
  - intros ->. by rewrite rows_after_update_absorbs.
  - by rewrite rows_after_update_absorbs.
Qed.

Lemma transitionStatus_accepts_and_repeats_witness :
  ∃ a1,
    (transitionStatus 2000 "a-1" "hired" Sample.after_jane).1
      = Response.mk 200 (ApplicationBody a1)
    ∧ Application.status a1 = "hired"
    ∧ (transitionStatus 3000 "a-1" "hired"
         (transitionStatus 2000 "a-1" "hired" Sample.after_jane).2).1
      = Response.mk 200 (ApplicationBody (Application.set_updatedAt 3000 a1)).
Proof.
  assert (valid_status "hired") as Hvalid
    by (unfold valid_status, status_literals; repeat constructor).
  assert (is_Some (getApplicationById "a-1" Sample.after_jane)) as Hfound
    by (eexists; reflexivity).
  destruct (transitionStatus_accepts_and_repeats 2000 3000 "a-1" "hired"
              Sample.after_jane Hvalid Hfound)
    as (a1 & Hresp & Hstatus & _ & Hagain & _).
  exists a1. split; [exact Hresp |]. split; [exact Hstatus |].
  rewrite Hagain. reflexivity.
Defined.

(** C5, as stated, fails on the last point: the same status requested at
    time 2000 and again at time 3000; both requests answer 200, but the
    application read back after the second differs from the one read back
    after the first, its [updatedAt] having moved from 2000 to 3000. *)
Lemma repeated_transition_moves_updatedAt :
  Response.status (transitionStatus 2000 "a-1" "screening" Sample.after_jane).1 = 200
  ∧ Response.status
      (transitionStatus 3000 "a-1" "screening"
         (transitionStatus 2000 "a-1" "screening" Sample.after_jane).2).1 = 200
  ∧ Application.updatedAt
      <$> getApplicationById "a-1"
            (transitionStatus 2000 "a-1" "screening" Sample.after_jane).2 = Some 2000
  ∧ Application.updatedAt
      <$> getApplicationById "a-1"
            (transitionStatus 3000 "a-1" "screening"
               (transitionStatus 2000 "a-1" "screening" Sample.after_jane).2).2
      = Some 3000
  ∧ (transitionStatus 3000 "a-1" "screening"
       (transitionStatus 2000 "a-1" "screening" Sample.after_jane).2).2
    ≠ (transitionStatus 2000 "a-1" "screening" Sample.after_jane).2.
Proof.
  repeat split; try reflexivity.
  intros Heq. apply (f_equal (λ st, Application.updatedAt <$> Store.applications st)) in Heq.
  vm_compute in Heq. discriminate Heq.
Qed.

(** ** C4: which status values get stored *)

Lemma requested_statuses_cons (r : Request) (rs : list Request) :
  requested_statuses (r :: rs) = requested_statuses [r] ++ requested_statuses rs.
Proof. unfold requested_statuses. cbn. by rewrite app_nil_r. Qed.

Lemma handle_valid_status (r : Request) (st : Store.t) :
  Forall (λ a, valid_status (Application.status a)) (Store.applications st) →
  Forall valid_status (requested_statuses [r]) →
  Forall (λ a, valid_status (Application.status a)) (Store.applications (handle r st).2).
Proof.
  intros Hst Hreq. destruct r as [env req | now id status]; cbn [handle].
  - destruct (submit_effect env req st) as (_ & _ & _ & [-> | (a & -> & Happlied & _)]);
      [done |].
    apply Forall_app. split; [done |]. apply Forall_singleton.
    rewrite Happlied. unfold valid_status, status_literals. left.
  - cbn in Hreq. rewrite Forall_singleton in Hreq.
    rewrite transitionStatus_rows. destruct (truthy status); [| done].
    apply Forall_fmap, Forall_forall. intros a Hin. cbn.
    unfold update_row. destruct (decide _); cbn; [done |].
    by apply (proj1 (Forall_forall _ _) Hst).
Qed.

(** C4, as amended: an application is created with the status applied; a
    transition request carrying any non-empty string on an id of the table
    is accepted and that string is stored as the status of the row, whether
    or not it is one of the six literals; so after a sequence of requests
    every stored status is one of the six literals provided the stored ones
    were to begin with and every transition request carried one of them. *)
Theorem stored_status_is_applied_or_requested :
  (∀ env req st,
     Store.applications (submit env req st).2 = Store.applications st
     ∨ ∃ a, Store.applications (submit env req st).2 = Store.applications st ++ [a]
            ∧ Application.status a = "applied")
  ∧ (∀ now id status st a,
       truthy status = true →
       getApplicationById id st = Some a →
       Response.status (transitionStatus now id status st).1 = 200
       ∧ Application.status
           <$> getApplicationById id (transitionStatus now id status st).2 = Some status)
  ∧ (∀ rs st,
       Forall (λ a, valid_status (Application.status a)) (Store.applications st) →
       Forall valid_status (requested_statuses rs) →
       Forall (λ a, valid_status (Application.status a))
         (Store.applications (run rs st))).
Proof.
  split; [| split].
  - intros env req st.
    destruct (submit_effect env req st) as (_ & _ & _ & [Hsame | (a & Happ & Hst & _)]);
      [by left | right; by exists a].
  - intros now id status st a Htruthy Hfound.
    rewrite (transitionStatus_found now id status st a Htruthy Hfound). cbn [fst snd].
    split; [done |].
    by rewrite (getApplicationById_updated now id status st a Hfound).
  - intros rs. induction rs as [| r rs IH]; intros st Hst Hreq; [done |].
    rewrite run_cons.
    rewrite requested_statuses_cons in Hreq.
    apply Forall_app in Hreq as [Hr Hrs].
    apply IH; [| done]. by apply handle_valid_status.
Qed.

Lemma stored_status_is_applied_or_requested_witness :
  Forall (λ a, valid_status (Application.status a))
    (Store.applications
       (run [Submit (Sample.env_scoring 2000 "c-2" "a-2" 70) (Sample.jane "J2" Sample.pdf);
             TransitionStatus 3000 "a-1" "rejected";
             TransitionStatus 4000 "a-1" "interview"]
          Sample.after_jane)).
Proof.
  apply (proj2 (proj2 stored_status_is_applied_or_requested)).
  - repeat constructor.
  - repeat constructor.
Defined.

(** C4, as stated, fails: a transition request carrying the non-empty string
    archived, which is none of the six literals, answers 200 and archived is
    the status stored. *)
Lemma transition_stores_unknown_status :
  truthy "archived" = true
  ∧ ¬ valid_status "archived"
  ∧ Response.status (transitionStatus 3000 "a-1" "archived" Sample.after_jane).1 = 200
  ∧ Application.status
      <$> Store.applications (transitionStatus 3000 "a-1" "archived" Sample.after_jane).2
    = ["archived"].
Proof.
  repeat split; try reflexivity.
  unfold valid_status, status_literals. intros H.
  repeat (apply elem_of_cons in H as [H | H]; [discriminate H |]).
  by apply not_elem_of_nil in H.
Qed.

(** ** C3: the columns of the pipeline board *)

Lemma foldl_insert_lookup {V : Type} (g : string → V) (cols : list Column.t)
    (m : gmap string V) (k : string) :
  foldl (λ acc column, <[Column.key column := g (Column.key column)]> acc) m cols !! k
  = if decide (k ∈ Column.key <$> cols) then Some (g k) else m !! k.
Proof.
  revert m. induction cols as [| c cols IH]; intros m; cbn [foldl fmap list_fmap].
  - rewrite decide_False; [done | apply not_elem_of_nil].
  - rewrite IH. destruct (decide (k ∈ Column.key <$> cols)) as [Hin | Hnot].
    + rewrite decide_True; [done | by right].
    + rewrite lookup_insert. destruct (decide (Column.key c = k)) as [<- | Hne].
      * rewrite decide_True; [done | left].
      * rewrite decide_False; [done |].
        intros Hin. apply elem_of_cons in Hin as [-> | Hin]; done.
Qed.

(** The object built by the [reduce] has exactly the keys of the columns,
    each holding the applications with that status. *)
Lemma applicationsByStatus_lookup (applications : option (list ApplicationWithDetails.t))
    (k : string) :
  applicationsByStatus applications !! k
  = if decide (k ∈ column_keys) then Some (status_group applications k) else None.
Proof.
  unfold applicationsByStatus.
  rewrite (foldl_insert_lookup (status_group applications) statusColumns ∅ k).
  by rewrite lookup_empty.
Qed.

Lemma columnApplications_key (applications : option (list ApplicationWithDetails.t))
    (column : Column.t) :
  Column.key column ∈ column_keys →
  columnApplications applications column = status_group applications (Column.key column).
Proof.
  intros Hin. unfold columnApplications.
  by rewrite applicationsByStatus_lookup, decide_True.
Qed.


(** No two columns of the board have the same key. *)
Lemma statusColumns_key_inj (c1 c2 : Column.t) :
  c1 ∈ statusColumns → c2 ∈ statusColumns → Column.key c1 = Column.key c2 → c1 = c2.
Proof.
  unfold statusColumns. intros H1 H2 Hkey.
  repeat (apply elem_of_cons in H1 as [-> | H1]);
    [| | | | | by apply not_elem_of_nil in H1];
    (repeat (apply elem_of_cons in H2 as [-> | H2]);
       [| | | | | by apply not_elem_of_nil in H2]);
    first [reflexivity | discriminate Hkey].
Qed.


Section group_by_key.
Context {A : Type} (f : A → string).


End group_by_key.




(** ** Array.prototype.sort with a consistent comparator *)

Section sort_by.
Context {A : Type} (cmp : A → A → Z).

Lemma insert_by_Permutation (x : A) (l : list A) : insert_by cmp x l ≡ₚ x :: l.
Proof.
  induction l as [| y l IH]; cbn; [done |].
  destruct (cmp x y <=? 0); [done |].
  rewrite IH. apply perm_swap.
Qed.

Lemma sort_by_Permutation (l : list A) : sort_by cmp l ≡ₚ l.
Proof.
  induction l as [| x l IH]; cbn; [done |].
  rewrite insert_by_Permutation. by constructor.
Qed.

(** The comparator is consistent: of two elements one may precede the
    other, and "may precede" is transitive. *)
Hypothesis cmp_total : ∀ x y, 0 < cmp x y → cmp y x ≤ 0.
Hypothesis cmp_trans : ∀ x y z, cmp x y ≤ 0 → cmp y z ≤ 0 → cmp x z ≤ 0.

Lemma insert_by_StronglySorted (x : A) (l : list A) :
  StronglySorted (λ a b, cmp a b ≤ 0) l →
  StronglySorted (λ a b, cmp a b ≤ 0) (insert_by cmp x l).
Proof.
  induction 1 as [| y l Hsorted IH Hy]; cbn.
  - repeat constructor.
  - destruct (Z.leb_spec (cmp x y) 0) as [Hle | Hgt].
    + constructor; [by constructor |].
      constructor; [done |].
      eapply Forall_impl; [exact Hy |]. intros z Hz. by eapply cmp_trans.
    + constructor; [done |].
      rewrite insert_by_Permutation. constructor; [by apply cmp_total | done].
Qed.

Lemma sort_by_StronglySorted (l : list A) :
  StronglySorted (λ a b, cmp a b ≤ 0) (sort_by cmp l).
Proof.
  induction l as [| x l IH]; cbn; [constructor |].
  by apply insert_by_StronglySorted.
Qed.

(** Elements already in order, ties included, stay where they are. *)
Lemma sort_by_sorted (l : list A) :
  StronglySorted (λ a b, cmp a b ≤ 0) l → sort_by cmp l = l.
Proof.
  induction 1 as [| x l Hsorted IH Hx]; cbn; [done |].
  fold (sort_by cmp l). rewrite IH.
  destruct Hx as [| y l' Hxy _]; cbn; [done |].
  by rewrite (proj2 (Z.leb_le _ _) Hxy).
Qed.
End sort_by.


(** ** Math.max *)







(** ** C8: the ranked list of candidates *)





Lemma getAllCandidatesWithApplications_Permutation (st : Store.t) :
  getAllCandidatesWithApplications st ≡ₚ withApplications st <$> Store.candidates st.
Proof.
  unfold getAllCandidatesWithApplications, orderBy_desc.
  rewrite sort_by_Permutation. apply fmap_Permutation, sort_by_Permutation.
Qed.





(** ** The scenarios of the specification, run *)

(** A first submit with a score of 85 creates the candidate and an
    application to J1 with status applied and match score 85. *)
Example scenario_first_submit :
  Response.status
    (submit (Sample.env_scoring 1000 "c-1" "a-1" 85) (Sample.jane "J1" Sample.pdf)
       Sample.jobs_only).1 = 201
  ∧ Store.candidates Sample.after_jane = [Sample.jane_row]
  ∧ (λ a, (Application.jobId a, Application.candidateId a, Application.status a,
            Application.matchScore a))
      <$> Store.applications Sample.after_jane
    = [("J1", "c-1", "applied", Some 85)].
Proof. repeat split; reflexivity. Qed.

(** A second submit with the same e-mail to J2 creates no candidate and a
    second application of the same candidate. *)
Example scenario_second_submit :
  Store.candidates
    (submit (Sample.env_scoring 2000 "c-2" "a-2" 70) (Sample.jane "J2" Sample.pdf)
       Sample.after_jane).2 = [Sample.jane_row]
  ∧ (λ a, (Application.jobId a, Application.candidateId a))
      <$> Store.applications
            (submit (Sample.env_scoring 2000 "c-2" "a-2" 70) (Sample.jane "J2" Sample.pdf)
               Sample.after_jane).2
    = [("J1", "c-1"); ("J2", "c-1")].
Proof. split; reflexivity. Qed.

(** Rejected, then interview: both transitions are accepted and the status
    ends as interview. *)
Example scenario_rejected_then_interview :
  Response.status (transitionStatus 2000 "a-1" "rejected" Sample.after_jane).1 = 200
  ∧ Response.status
      (transitionStatus 3000 "a-1" "interview"
         (transitionStatus 2000 "a-1" "rejected" Sample.after_jane).2).1 = 200
  ∧ Application.status
      <$> Store.applications
            (run [TransitionStatus 2000 "a-1" "rejected";
                  TransitionStatus 3000 "a-1" "interview"] Sample.after_jane)
    = ["interview"].
Proof. repeat split; reflexivity. Qed.

(** A transition on an id that is not in the table answers 404 and changes
    nothing; one without a status answers 400. *)
Example scenario_transition_refused :
  transitionStatus 2000 "a-9" "offer" Sample.after_jane
  = (Response.mk 404 (ErrorBody "Application not found"), Sample.after_jane)
  ∧ transitionStatus 2000 "a-1" "" Sample.after_jane
    = (Response.mk 400 (ErrorBody "Status is required"), Sample.after_jane).
Proof. split; reflexivity. Qed.

(** The ranked list of the three sample candidates, with what ranks them. *)
Example scenario_ranking :
  (λ c, (Candidate.name (CandidateWithApplications.candidate c), maxScore c))
    <$> getAllCandidatesWithApplications Sample.three_candidates
  = [("Ada", Some 90); ("Bo", Some 40); ("Cy", None)].
Proof. reflexivity. Qed.

(** * Further properties of the code *)

(** ** Sorting: maps, filters, ORDER BY *)

(** Sorting the images by a comparator that reads the images as the
    originals are compared is mapping the sorted originals. *)
Lemma sort_by_fmap {A B : Type} (f : A → B) (cmp : A → A → Z) (cmp' : B → B → Z)
    (l : list A) :
  (∀ a b, cmp' (f a) (f b) = cmp a b) →
  sort_by cmp' (f <$> l) = f <$> sort_by cmp l.
Proof.
  intros Hcmp.
  assert (∀ x k, insert_by cmp' (f x) (f <$> k) = f <$> insert_by cmp x k) as Hins.
  { intros x k. induction k as [| y k IH]; [done |].
    cbn. rewrite Hcmp. destruct (cmp x y <=? 0); [done |]. cbn. by rewrite IH. }
  induction l as [| x l IH]; [done |].
  cbn. fold (sort_by cmp' (f <$> l)) (sort_by cmp l). by rewrite IH, Hins.
Qed.

Section sort_filter.
Context {A : Type} (cmp : A → A → Z) (P : A → Prop) `{!∀ x, Decision (P x)}.
Hypothesis cmp_total : ∀ x y, 0 < cmp x y → cmp y x ≤ 0.
Hypothesis cmp_trans : ∀ x y z, cmp x y ≤ 0 → cmp y z ≤ 0 → cmp x z ≤ 0.

Lemma filter_insert_by (x : A) (l : list A) :
  StronglySorted (λ a b, cmp a b ≤ 0) l →
  filter P (insert_by cmp x l)
  = if decide (P x) then insert_by cmp x (filter P l) else filter P l.
Proof.
  induction 1 as [| y l Hsorted IH Hy]; cbn [insert_by].
  - rewrite filter_cons. by destruct (decide (P x)).
  - destruct (Z.leb_spec (cmp x y) 0) as [Hle | Hgt].
    + rewrite (filter_cons P x). destruct (decide (P x)) as [HPx | HPx]; [| done].
      assert (insert_by cmp x (filter P (y :: l)) = x :: filter P (y :: l)) as ->; [| done].
      destruct (filter P (y :: l)) as [| z k] eqn:Hf; [done |].
      cbn [insert_by]. assert (cmp x z ≤ 0) as Hxz.
      { assert (z ∈ filter P (y :: l)) as Hz by (rewrite Hf; left).
        apply list_elem_of_filter in Hz as [_ Hz].
        apply elem_of_cons in Hz as [-> | Hz]; [done |].
        eapply cmp_trans; [exact Hle |].
        by apply (proj1 (Forall_forall _ _) Hy). }
      by rewrite (proj2 (Z.leb_le _ _) Hxz).
    + rewrite (filter_cons P y (insert_by cmp x l)), (filter_cons P y l), IH.
      destruct (decide (P y)) as [HPy | HPy]; [| done].
      destruct (decide (P x)); [| done].
      cbn [insert_by]. by rewrite (proj2 (Z.leb_gt _ _) Hgt).
Qed.

(** The stable sort commutes with a filter. *)
Lemma sort_by_filter (l : list A) :
  sort_by cmp (filter P l) = filter P (sort_by cmp l).
Proof.
  induction l as [| x l IH]; [done |].
  cbn [sort_by foldr]. fold (sort_by cmp l).
  rewrite filter_insert_by by (by apply sort_by_StronglySorted).
  rewrite filter_cons. destruct (decide (P x)); [| done].
  cbn [sort_by foldr]. fold (sort_by cmp (filter P l)). by rewrite IH.
Qed.
End sort_filter.

Lemma StronglySorted_weaken {A : Type} (R R' : A → A → Prop) (l : list A) :
  (∀ a b, R a b → R' a b) → StronglySorted R l → StronglySorted R' l.
Proof.
  intros HR. induction 1 as [| x l Hs IH Hx]; constructor; [done |].
  eapply Forall_impl; [exact Hx | apply HR].
Qed.

Section orderBy.
Context {A : Type} (key : A → Z).

Lemma orderBy_desc_Permutation (l : list A) : orderBy_desc key l ≡ₚ l.
Proof. apply sort_by_Permutation. Qed.

Lemma orderBy_asc_Permutation (l : list A) : orderBy_asc key l ≡ₚ l.
Proof. apply sort_by_Permutation. Qed.

Lemma orderBy_desc_sorted (l : list A) :
  StronglySorted (λ a b, key b ≤ key a) (orderBy_desc key l).
Proof.
  eapply StronglySorted_weaken;
    [| apply (sort_by_StronglySorted (λ a b, key b - key a)); intros; lia].
  intros a b. cbn. lia.
Qed.

Lemma orderBy_asc_sorted (l : list A) :
  StronglySorted (λ a b, key a ≤ key b) (orderBy_asc key l).
Proof.
  eapply StronglySorted_weaken;
    [| apply (sort_by_StronglySorted (λ a b, key a - key b)); intros; lia].
  intros a b. cbn. lia.
Qed.

Lemma orderBy_asc_filter (P : A → Prop) `{!∀ x, Decision (P x)} (l : list A) :
  orderBy_asc key (filter P l) = filter P (orderBy_asc key l).
Proof. apply sort_by_filter; intros; lia. Qed.

(** Rows already in their order, equal keys included, are left in place. *)
Lemma orderBy_asc_sorted_id (l : list A) :
  StronglySorted (λ a b, key a ≤ key b) l → orderBy_asc key l = l.
Proof.
  intros Hs. apply sort_by_sorted.
  eapply StronglySorted_weaken; [| exact Hs]. intros a b. cbn. lia.
Qed.
End orderBy.

(** ** The listings *)

(** The four listings of the record store return every row of their table
    once; jobs, candidates and applications newest first, interviews in
    the order of their dates. *)
Lemma listings_complete_and_ordered (st : Store.t) :
  (getAllJobs st ≡ₚ Store.jobs st
   ∧ StronglySorted (λ a b, Job.createdAt b ≤ Job.createdAt a) (getAllJobs st))
  ∧ (getAllCandidates st ≡ₚ Store.candidates st
     ∧ StronglySorted (λ a b, Candidate.createdAt b ≤ Candidate.createdAt a)
         (getAllCandidates st))
  ∧ (getAllApplications st ≡ₚ Store.applications st
     ∧ StronglySorted (λ a b, Application.appliedAt b ≤ Application.appliedAt a)
         (getAllApplications st))
  ∧ (getAllInterviews st ≡ₚ Store.interviews st
     ∧ StronglySorted (λ a b, Interview.scheduledAt a ≤ Interview.scheduledAt b)
         (getAllInterviews st)).
Proof.
  repeat split;
    first [apply orderBy_desc_Permutation | apply orderBy_asc_Permutation
          | apply orderBy_desc_sorted | apply orderBy_asc_sorted].
Qed.

(** ** The statistics *)

Lemma length_filter_Permutation {A : Type} (P : A → Prop) `{!∀ x, Decision (P x)}
    (l k : list A) :
  l ≡ₚ k → length (filter P l) = length (filter P k).
Proof. intros Hperm. by rewrite Hperm. Qed.

(** The counts of [getStats], taken over the listings, in terms of the
    tables. *)
Lemma getStats_tables (st : Store.t) :
  Stats.totalJobs (getStats st) = length (Store.jobs st)
  ∧ Stats.activeJobs (getStats st)
    = length (filter (λ j, Job.status j = "active") (Store.jobs st))
  ∧ Stats.totalCandidates (getStats st) = length (Store.candidates st)
  ∧ Stats.totalApplications (getStats st) = length (Store.applications st)
  ∧ Stats.interviewsScheduled (getStats st)
    = length (filter (λ i, Interview.status i = "scheduled") (Store.interviews st))
  ∧ Stats.offersExtended (getStats st) = count_status "offer" (Store.applications st).
Proof.
  destruct (listings_complete_and_ordered st)
    as ((Hj & _) & (Hc & _) & (Ha & _) & (Hi & _)).
  unfold getStats, count_status. cbn.
  rewrite (Permutation_length Hj), (Permutation_length Hc), (Permutation_length Ha).
  by rewrite (length_filter_Permutation _ _ _ Hj), (length_filter_Permutation _ _ _ Hi),
    (length_filter_Permutation _ _ _ Ha).
Qed.

(** The statistics are counts over the tables themselves, whatever order
    the listings come in: the three totals are the sizes of the tables, and
    the three partial counts (active jobs, scheduled interviews, offers) are
    the numbers of rows with that status, never more than their totals. *)
Theorem getStats_counts_rows (st : Store.t) :
  Stats.totalJobs (getStats st) = length (Store.jobs st)
  ∧ Stats.totalCandidates (getStats st) = length (Store.candidates st)
  ∧ Stats.totalApplications (getStats st) = length (Store.applications st)
  ∧ Stats.activeJobs (getStats st)
    = length (filter (λ j, Job.status j = "active") (Store.jobs st))
  ∧ Stats.interviewsScheduled (getStats st)
    = length (filter (λ i, Interview.status i = "scheduled") (Store.interviews st))
  ∧ Stats.offersExtended (getStats st) = count_status "offer" (Store.applications st)
  ∧ (Stats.activeJobs (getStats st) ≤ Stats.totalJobs (getStats st))%nat
  ∧ (Stats.offersExtended (getStats st) ≤ Stats.totalApplications (getStats st))%nat
  ∧ (Stats.interviewsScheduled (getStats st) ≤ length (Store.interviews st))%nat.
Proof.
  destruct (getStats_tables st) as (-> & -> & -> & -> & -> & ->).
  unfold count_status. repeat split; apply length_filter.
Qed.

Lemma update_row_no_match (now : Z) (id status : string) (l : list Application.t) :
  id ∉ Application.id <$> l → update_row now id status <$> l = l.
Proof.
  intros Hnot. induction l as [| a l IH]; [done |].
  cbn. rewrite IH by (intros Hin; apply Hnot; by right).
  unfold update_row. destruct (decide (Application.id a = id)) as [<- | Hne]; [| done].
  destruct Hnot. left.
Qed.

(** With one row per id, a transition takes exactly one application out of
    the count of its old status and into the count of the new one. *)
Lemma count_status_update (k : string) (now : Z) (id status : string)
    (l : list Application.t) (a : Application.t) :
  NoDup (Application.id <$> l) →
  head (filter (λ a, Application.id a = id) l) = Some a →
  (count_status k (update_row now id status <$> l)
   + (if decide (Application.status a = k) then 1 else 0)
   = count_status k l + (if decide (status = k) then 1 else 0))%nat.
Proof.
  unfold count_status. induction l as [| x l IH]; [done |].
  intros Hnd Hhead. cbn in Hnd. apply NoDup_cons in Hnd as [Hx Hnd].
  rewrite fmap_cons, (filter_cons _ x l), (filter_cons _ (update_row now id status x)).
  rewrite filter_cons in Hhead.
  destruct (decide (Application.id x = id)) as [Heq | Hne].
  - cbn in Hhead. injection Hhead as ->. subst id.
    rewrite update_row_no_match by done.
    replace (Application.status (update_row now (Application.id a) status a))
      with status by (unfold update_row; by rewrite decide_True).
    destruct (decide (status = k)), (decide (Application.status a = k)); cbn; lia.
  - specialize (IH Hnd Hhead).
    replace (update_row now id status x) with x
      by (unfold update_row; by rewrite decide_False).
    destruct (decide (Application.status x = k)); cbn; lia.
Qed.

(** A status transition changes no statistic but the count of offers; and,
    the ids of the applications being distinct, a transition accepted for
    an application moves that count by exactly what the change says: one
    more when the application becomes an offer, one less when it stops
    being one. *)
Theorem getStats_after_transition (now : Z) (id status : string) (st : Store.t) :
  (Stats.totalJobs (getStats (transitionStatus now id status st).2)
     = Stats.totalJobs (getStats st)
   ∧ Stats.activeJobs (getStats (transitionStatus now id status st).2)
     = Stats.activeJobs (getStats st)
   ∧ Stats.totalCandidates (getStats (transitionStatus now id status st).2)
     = Stats.totalCandidates (getStats st)
   ∧ Stats.totalApplications (getStats (transitionStatus now id status st).2)
     = Stats.totalApplications (getStats st)
   ∧ Stats.interviewsScheduled (getStats (transitionStatus now id status st).2)
     = Stats.interviewsScheduled (getStats st))
  ∧ (∀ a,
       NoDup (Application.id <$> Store.applications st) →
       truthy status = true →
       getApplicationById id st = Some a →
       (Stats.offersExtended (getStats (transitionStatus now id status st).2)
        + (if decide (Application.status a = "offer") then 1 else 0)
        = Stats.offersExtended (getStats st)
          + (if decide (status = "offer") then 1 else 0))%nat).
Proof.
  split.
  - destruct (getStats_tables (transitionStatus now id status st).2)
      as (-> & -> & -> & -> & -> & _).
    destruct (getStats_tables st) as (-> & -> & -> & -> & -> & _).
    rewrite transitionStatus_store. destruct (truthy status); [| done].
    cbn. by rewrite (Permutation_length (rows_after_update_Permutation _ _ _ _)),
      length_fmap.
  - intros a Hnd Htruthy Hfound.
    destruct (getStats_tables (transitionStatus now id status st).2)
      as (_ & _ & _ & _ & _ & ->).
    destruct (getStats_tables st) as (_ & _ & _ & _ & _ & ->).
    rewrite transitionStatus_store, Htruthy. cbn. unfold count_status.
    rewrite (length_filter_Permutation _ _ _ (rows_after_update_Permutation _ _ _ _)).
    by apply count_status_update.
Qed.

Lemma getStats_after_transition_witness :
  (Stats.offersExtended
     (getStats (transitionStatus 3000 "a-1" "offer" Sample.after_jane).2) + 0
   = Stats.offersExtended (getStats Sample.after_jane) + 1)%nat.
Proof.
  assert (NoDup (Application.id <$> Store.applications Sample.after_jane)) as Hnd
    by (apply (bool_decide_unpack _); by vm_compute).
  destruct (getApplicationById "a-1" Sample.after_jane) as [a |] eqn:Hfound;
    [| discriminate Hfound].
  pose proof (proj2 (getStats_after_transition 3000 "a-1" "offer" Sample.after_jane)
                a Hnd eq_refl Hfound) as Hcount.
  vm_compute in Hfound. injection Hfound as <-. exact Hcount.
Defined.

(** ** The answer of a submit and what it wrote *)

Lemma createApplication_references (uuid : string) (now : Z) (ins : InsertApplication.t)
    (st st' : Store.t) (a : Application.t) :
  createApplication uuid now ins st = Ok (a, st') →
  Application.jobId a ∈ Job.id <$> Store.jobs st
  ∧ Application.candidateId a ∈ Candidate.id <$> Store.candidates st.
Proof.
  unfold createApplication. intros H.
  destruct (bool_decide (InsertApplication.jobId ins ∈ Job.id <$> Store.jobs st)) eqn:Hj;
    [| discriminate H].
  destruct (bool_decide (InsertApplication.candidateId ins
                           ∈ Candidate.id <$> Store.candidates st)) eqn:Hc;
    [| discriminate H].
  destruct (from_option in_int4 true (InsertApplication.matchScore ins));
    [| discriminate H].
  cbn in H. injection H as <- _. cbn.
  split; [exact (bool_decide_eq_true_1 _ Hj) | exact (bool_decide_eq_true_1 _ Hc)].
Qed.

(** The four ways a submit ends. *)
Lemma submit_outcomes (env : Env.t) (req : UploadRequest.t) (st : Store.t) :
  (Response.status (submit env req st).1 = 201
   ∧ ∃ a, Store.applications (submit env req st).2 = Store.applications st ++ [a]
          ∧ Application.jobId a ∈ Job.id <$> Store.jobs (submit env req st).2
          ∧ Application.candidateId a
            ∈ Candidate.id <$> Store.candidates (submit env req st).2)
  ∨ (Response.status (submit env req st).1 = 400 ∧ (submit env req st).2 = st)
  ∨ (Response.status (submit env req st).1 = 404
     ∧ Store.applications (submit env req st).2 = Store.applications st)
  ∨ (Response.status (submit env req st).1 = 500
     ∧ Store.applications (submit env req st).2 = Store.applications st).
Proof.
  unfold submit, upload_handler.
  repeat (case_match; simplify_eq/=; try by auto);
    repeat match goal with
    | H : createCandidate _ _ _ _ = Ok _ |- _ =>
      apply createCandidate_inv in H as (-> & ? & ?)
    | H : createApplication _ _ _ _ = Ok _ |- _ =>
      let Href := fresh "Href" in
      pose proof (createApplication_references _ _ _ _ _ _ H) as Href;
      apply createApplication_inv in H as (-> & ? & ? & ? & ? & ? & ?)
    end; simplify_eq/=; try by auto.
  all: left; split; [done |]; eexists; split; [done |]; cbn in *; tauto.
Qed.

(** An application is created exactly when the submit answers 201, and one
    at a time; the answer is 201, 400, 404 or 500; after a 400 the database
    is what it was, and after a 404 or a 500 no application was added
    (though a candidate may have been). *)
Theorem submit_creates_application_iff_201
    (env : Env.t) (req : UploadRequest.t) (st : Store.t) :
  (Response.status (submit env req st).1 = 201
   ↔ ∃ a, Store.applications (submit env req st).2 = Store.applications st ++ [a])
  ∧ (Response.status (submit env req st).1 ≠ 201 →
     Store.applications (submit env req st).2 = Store.applications st)
  ∧ (Response.status (submit env req st).1 = 400 → (submit env req st).2 = st)
  ∧ Response.status (submit env req st).1 ∈ [201; 400; 404; 500].
Proof.
  assert (∀ (l : list Application.t) a, l ≠ l ++ [a]) as Hne.
  { intros l a Heq. apply (f_equal length) in Heq.
    rewrite length_app in Heq. cbn in Heq. lia. }
  destruct (submit_outcomes env req st)
    as [[Hs (a & Ha & _)] | [[Hs Hst] | [[Hs Ha] | [Hs Ha]]]]; rewrite Hs;
    try rewrite Hst; try rewrite Ha.
  all: split; [split | split; [| split]].
  all: first [ done
             | by exists a
             | by intros [=]
             | by (intros (a' & Ha'); apply Hne in Ha')
             | by (intros Hn; destruct Hn)
             | repeat constructor ].
Qed.

(** ** The answer of a transition and what it wrote *)

(** A transition answers 200 exactly when a status is given and the id is
    in the table; without a status it answers 400, with an unknown id 404,
    and in both cases the database is what it was. *)
Theorem transitionStatus_answer (now : Z) (id status : string) (st : Store.t) :
  (Response.status (transitionStatus now id status st).1 = 200
   ↔ truthy status = true ∧ is_Some (getApplicationById id st))
  ∧ (truthy status = false →
     transitionStatus now id status st
     = (Response.mk 400 (ErrorBody "Status is required"), st))
  ∧ (truthy status = true → getApplicationById id st = None →
     transitionStatus now id status st
     = (Response.mk 404 (ErrorBody "Application not found"), st)).
Proof.
  assert (truthy status = true → getApplicationById id st = None →
          transitionStatus now id status st
          = (Response.mk 404 (ErrorBody "Application not found"), st)) as H404.
  { intros Htruthy Hnone. unfold transitionStatus. rewrite Htruthy. cbn [negb].
    pose proof (updateApplicationStatus_returning now id status st) as Hret.
    pose proof (updateApplicationStatus_store now id status st) as Hst.
    destruct (updateApplicationStatus now id status st) as [r st'].
    cbn in Hret, Hst. subst. rewrite Hnone. cbn. f_equal.
    unfold with_applications. rewrite rows_after_update_no_match; [by destruct st |].
    intros Hin. apply list_elem_of_fmap in Hin as (a & -> & Hin).
    by apply (head_filter_None (λ b, Application.id b = Application.id a) _ Hnone a). }
  split; [| split; [| done]].
  - destruct (truthy status) eqn:Htruthy.
    + destruct (getApplicationById id st) as [a |] eqn:Hfound.
      * rewrite (transitionStatus_found now id status st a Htruthy Hfound).
        split; [by eauto | done].
      * rewrite (H404 eq_refl eq_refl). split; [done | intros [_ [? [=]]]].
    + unfold transitionStatus. rewrite Htruthy. split; [done | intros [[=] _]].
  - intros Hfalse. unfold transitionStatus. by rewrite Hfalse.
Qed.

Lemma transitionStatus_answer_witness :
  transitionStatus 3000 "a-404" "offer" Sample.after_jane
  = (Response.mk 404 (ErrorBody "Application not found"), Sample.after_jane).
Proof.
  exact (proj2 (proj2 (transitionStatus_answer 3000 "a-404" "offer" Sample.after_jane))
           eq_refl eq_refl).
Defined.

(** ** What no sequence of requests does *)

Lemma update_row_fixed_columns (now : Z) (id status : string) (a : Application.t) :
  fixed_columns (update_row now id status a) = fixed_columns a.
Proof. unfold update_row. by destruct (decide _). Qed.

Lemma handle_append_only (r : Request) (st : Store.t) :
  Store.jobs (handle r st).2 = Store.jobs st
  ∧ Store.interviews (handle r st).2 = Store.interviews st
  ∧ Store.candidates st ⊆+ Store.candidates (handle r st).2
  ∧ (fixed_columns <$> Store.applications st)
      ⊆+ (fixed_columns <$> Store.applications (handle r st).2).
Proof.
  destruct r as [env req | now id status]; cbn [handle].
  - destruct (submit_effect env req st)
      as (-> & -> & [-> | (c & -> & _)] & [-> | (a & -> & _)]);
      repeat split; try done; rewrite ?fmap_app; by apply submseteq_inserts_r.
  - destruct (transitionStatus_effect now id status st) as (-> & -> & ->).
    repeat split; try done.
    apply Permutation_submseteq. rewrite transitionStatus_rows.
    destruct (truthy status); [| done].
    rewrite <- list_fmap_compose.
    rewrite (list_fmap_ext (fixed_columns ∘ update_row now id status) fixed_columns);
      [done |].
    intros ? a ?. apply update_row_fixed_columns.
Qed.

(** Nothing is lost: whatever submits and transitions are run, the jobs and
    the interviews are untouched; every candidate row of before is still in
    the table, unchanged and as often as before; and every application row
    of before is still in the table, as often as before and with nothing
    changed but its status and [updatedAt].  (Where a row stands in its
    table is left open.) *)
Theorem run_append_only (rs : list Request) (st : Store.t) :
  Store.jobs (run rs st) = Store.jobs st
  ∧ Store.interviews (run rs st) = Store.interviews st
  ∧ Store.candidates st ⊆+ Store.candidates (run rs st)
  ∧ (fixed_columns <$> Store.applications st)
      ⊆+ (fixed_columns <$> Store.applications (run rs st)).
Proof.
  revert st. induction rs as [| r rs IH]; intros st; [done |].
  rewrite run_cons.
  destruct (handle_append_only r st) as (Hj & Hi & Hc & Ha).
  destruct (IH (handle r st).2) as (-> & -> & Hc' & Ha').
  repeat split; try done; by etrans.
Qed.

(** ** References between the tables *)

Lemma handle_references_resolve (r : Request) (st : Store.t) :
  references_resolve st → references_resolve (handle r st).2.
Proof.
  intros Href. destruct r as [env req | now id status]; cbn [handle].
  - destruct (submit_effect env req st) as (Hj & _ & Hc & _).
    assert (∀ x, x ∈ Candidate.id <$> Store.candidates st →
                 x ∈ Candidate.id <$> Store.candidates (submit env req st).2) as Hsub.
    { intros x Hx. destruct Hc as [-> | (c & -> & _)]; [done |].
      rewrite fmap_app. apply elem_of_app. by left. }
    destruct (submit_outcomes env req st)
      as [[_ (a & Ha & Hja & Hca)] | [[_ ->] | [[_ Ha] | [_ Ha]]]]; [| done | |].
    + intros b Hb. rewrite Ha in Hb. apply elem_of_app in Hb as [Hb | Hb].
      * destruct (Href b Hb) as [H1 H2]. rewrite Hj. auto.
      * apply list_elem_of_singleton in Hb as ->. done.
    + intros b Hb. rewrite Ha in Hb. destruct (Href b Hb) as [H1 H2]. rewrite Hj. auto.
    + intros b Hb. rewrite Ha in Hb. destruct (Href b Hb) as [H1 H2]. rewrite Hj. auto.
  - destruct (transitionStatus_effect now id status st) as (Hj & Hc & _).
    intros b Hb. rewrite Hj, Hc. rewrite transitionStatus_rows in Hb.
    destruct (truthy status); [| by apply Href].
    apply list_elem_of_fmap in Hb as (a & -> & Ha).
    destruct (Href a Ha) as [H1 H2].
    pose proof (update_row_fixed_columns now id status a) as Hfix.
    unfold fixed_columns in Hfix. injection Hfix as _ -> -> _ _ _ _. done.
Qed.

Lemma getCandidateById_is_Some (id : string) (st : Store.t) :
  id ∈ Candidate.id <$> Store.candidates st → is_Some (getCandidateById id st).
Proof.
  intros Hin. apply list_elem_of_fmap in Hin as (c & -> & Hc).
  destruct (getCandidateById (Candidate.id c) st) eqn:Hnone; [by eexists |].
  by destruct (head_filter_None (λ x, Candidate.id x = Candidate.id c) _ Hnone c Hc).
Qed.

Lemma getJobById_is_Some (id : string) (st : Store.t) :
  id ∈ Job.id <$> Store.jobs st → is_Some (getJobById id st).
Proof.
  intros Hin. apply list_elem_of_fmap in Hin as (j & -> & Hj).
  destruct (getJobById (Job.id j) st) eqn:Hnone; [by eexists |].
  by destruct (head_filter_None (λ x, Job.id x = Job.id j) _ Hnone j Hj).
Qed.

(** Referential integrity is kept: if every application references a job
    and a candidate of the database, it is still so after any sequence of
    submits and transitions; and then the detail route never answers
    Related data not found: it answers 404 Application not found for an
    unknown id and 200 with the application, a candidate and a job whose ids
    are those the application references otherwise. *)
Theorem references_kept_and_detail_found (rs : list Request) (st : Store.t) :
  references_resolve st →
  references_resolve (run rs st)
  ∧ ∀ id,
      (getApplicationById id (run rs st) = None
       ∧ get_application id (run rs st) = Error 404 "Application not found")
      ∨ ∃ a c j,
          get_application id (run rs st) = Json 200 (a, c, j)
          ∧ Application.id a = id
          ∧ Candidate.id c = Application.candidateId a
          ∧ Job.id j = Application.jobId a.
Proof.
  intros Href.
  assert (references_resolve (run rs st)) as Hrun.
  { revert st Href. induction rs as [| r rs IH]; intros st Href; [done |].
    rewrite run_cons. by apply IH, handle_references_resolve. }
  split; [done |]. intros id. unfold get_application.
  destruct (getApplicationById id (run rs st)) as [a |] eqn:Hfound; [right | by left].
  apply (head_filter_Some (λ b, Application.id b = id)) in Hfound as [Hin Hid].
  destruct (Hrun a Hin) as [Hj Hc].
  destruct (getCandidateById_is_Some _ _ Hc) as [c Hcand].
  destruct (getJobById_is_Some _ _ Hj) as [j Hjob].
  rewrite Hcand, Hjob. exists a, c, j. split; [done |]. split; [done |].
  apply (head_filter_Some (λ x, Candidate.id x = Application.candidateId a)) in Hcand.
  apply getJobById_Some in Hjob. tauto.
Qed.

Lemma references_kept_and_detail_found_witness :
  references_resolve
    (run [Submit (Sample.env_scoring 2000 "c-2" "a-2" 70) (Sample.jane "J2" Sample.pdf);
          TransitionStatus 3000 "a-1" "rejected"]
       Sample.after_jane).
Proof.
  assert (references_resolve Sample.after_jane) as Href.
  { unfold references_resolve. apply Forall_forall.
    apply (bool_decide_unpack _). by vm_compute. }
  exact (proj1 (references_kept_and_detail_found _ Sample.after_jane Href)).
Defined.

(** ** Creating and reading back a job *)

(** POST /api/jobs answers 400 with the message of the validation and leaves
    the database alone when the body does not validate; otherwise it answers
    201 with a job appended to the table, active unless a status was given,
    that GET /api/jobs/:id returns under its new id provided the id was not
    in use; every other id is answered as before, and an id that resolved
    before resolves to the same job. *)
Theorem post_jobs_then_get_job (parsed : result InsertJob.t) (uuid : string) (now : Z)
    (st : Store.t) :
  (∀ msg, parsed = Throw msg → post_jobs parsed uuid now st = (Error 400 msg, st))
  ∧ (∀ data, parsed = Ok data →
       ∃ job,
         (post_jobs parsed uuid now st).1 = Json 201 job
         ∧ Job.id job = uuid
         ∧ Job.status job = default "active" (InsertJob.status data)
         ∧ Store.jobs (post_jobs parsed uuid now st).2 = Store.jobs st ++ [job]
         ∧ Store.candidates (post_jobs parsed uuid now st).2 = Store.candidates st
         ∧ Store.applications (post_jobs parsed uuid now st).2 = Store.applications st
         ∧ Store.interviews (post_jobs parsed uuid now st).2 = Store.interviews st
         ∧ (uuid ∉ Job.id <$> Store.jobs st →
            get_job uuid (post_jobs parsed uuid now st).2 = Json 200 job)
         ∧ (∀ id, id ≠ uuid →
              get_job id (post_jobs parsed uuid now st).2 = get_job id st)
         ∧ (∀ id j, getJobById id st = Some j →
              getJobById id (post_jobs parsed uuid now st).2 = Some j)).
Proof.
  split; [by intros msg -> |].
  intros data ->. cbn. eexists. split; [done |].
  repeat split; try done.
  - intros Hfresh. unfold get_job, getJobById. cbn.
    rewrite (head_filter_snoc (λ j, Job.id j = uuid)); [done | | done].
    destruct (head (filter (λ j, Job.id j = uuid) (Store.jobs st))) as [j |] eqn:Hj;
      [| done].
    apply (head_filter_Some (λ j, Job.id j = uuid)) in Hj as [Hin <-].
    destruct Hfresh. by apply list_elem_of_fmap_2.
  - intros id Hne. unfold get_job, getJobById. cbn.
    rewrite filter_app, (filter_cons _ _ []), decide_False by (cbn; congruence).
    by rewrite filter_nil, app_nil_r.
  - intros id j Hj. unfold getJobById in *. cbn. rewrite filter_app.
    destruct (filter (λ j0, Job.id j0 = id) (Store.jobs st)); [done | exact Hj].
Qed.

Lemma post_jobs_then_get_job_witness :
  ∃ job,
    (post_jobs (Ok Sample2.designer) "J3" 5000 Sample.after_jane).1 = Json 201 job
    ∧ Job.status job = "active"
    ∧ get_job "J3" (post_jobs (Ok Sample2.designer) "J3" 5000 Sample.after_jane).2
      = Json 200 job.
Proof.
  destruct (proj2 (post_jobs_then_get_job (Ok Sample2.designer) "J3" 5000
                     Sample.after_jane) Sample2.designer eq_refl)
    as (job & Hresp & _ & Hstatus & _ & _ & _ & _ & Hget & _).
  exists job. split; [exact Hresp |]. split; [exact Hstatus |].
  apply Hget. apply (bool_decide_unpack _). by vm_compute.
Defined.

(** ** Interviews *)

(** An interview is stored only for an application of the database: for an
    unknown application the insert raises and nothing is written; for a
    known one (the duration fitting its column) the interview is appended,
    lasting 60 minutes and scheduled unless said otherwise, and the
    interviews of that application are those of before followed by it. *)
Theorem createInterview_needs_application (uuid : string) (now : Z)
    (ins : InsertInterview.t) (st : Store.t) :
  (InsertInterview.applicationId ins ∉ Application.id <$> Store.applications st →
   ∃ msg, createInterview uuid now ins st = Throw msg)
  ∧ (InsertInterview.applicationId ins ∈ Application.id <$> Store.applications st →
     from_option in_int4 true (InsertInterview.duration ins) = true →
     ∃ i st',
       createInterview uuid now ins st = Ok (i, st')
       ∧ Store.interviews st' = Store.interviews st ++ [i]
       ∧ Store.jobs st' = Store.jobs st
       ∧ Store.candidates st' = Store.candidates st
       ∧ Store.applications st' = Store.applications st
       ∧ Interview.applicationId i = InsertInterview.applicationId ins
       ∧ Interview.duration i = default 60 (InsertInterview.duration ins)
       ∧ Interview.status i = default "scheduled" (InsertInterview.status ins)
       ∧ getInterviewsByApplicationId (InsertInterview.applicationId ins) st'
         = getInterviewsByApplicationId (InsertInterview.applicationId ins) st ++ [i]).
Proof.
  unfold createInterview. split.
  - intros Hnot. rewrite bool_decide_eq_false_2 by done. by eexists.
  - intros Hin Hfit. rewrite bool_decide_eq_true_2 by done. rewrite Hfit. cbn [negb].
    do 2 eexists. split; [done |]. repeat split; try done.
    unfold getInterviewsByApplicationId. cbn.
    by rewrite filter_app, (filter_cons _ _ []), decide_True.
Qed.

Lemma createInterview_needs_application_witness :
  ∃ i st',
    createInterview "i-9" 5000 Sample2.screen_call Sample.after_jane = Ok (i, st')
    ∧ Interview.duration i = 60
    ∧ Interview.status i = "scheduled".
Proof.
  assert ("a-1" ∈ Application.id <$> Store.applications Sample.after_jane) as Hin
    by (apply (bool_decide_unpack _); by vm_compute).
  destruct (proj2 (createInterview_needs_application "i-9" 5000 Sample2.screen_call
                     Sample.after_jane) Hin eq_refl)
    as (i & st' & Hcreate & _ & _ & _ & _ & _ & Hd & Hs & _).
  exists i, st'. split; [exact Hcreate |]. split; [exact Hd | exact Hs].
Defined.

Lemma filter_fmap_comm {A B : Type} (f : A → B) (P : B → Prop) `{!∀ y, Decision (P y)}
    (l : list A) :
  filter P (f <$> l) = f <$> filter (λ x, P (f x)) l.
Proof.
  induction l as [| x l IH]; [done |].
  rewrite fmap_cons, !filter_cons, IH. by destruct (decide (P (f x))).
Qed.

(** The upcoming interviews are the scheduled interviews of the table that
    are not before now, earliest first: they are the interviews of the full
    listing that pass the test, in the order of the listing. *)
Theorem getUpcomingInterviews_spec (now : Z) (st : Store.t) :
  (∀ i, i ∈ getUpcomingInterviews now st
        ↔ i ∈ Store.interviews st
          ∧ Interview.status i = "scheduled" ∧ now ≤ Interview.scheduledAt i)
  ∧ StronglySorted (λ a b, Interview.scheduledAt a ≤ Interview.scheduledAt b)
      (getUpcomingInterviews now st)
  ∧ getUpcomingInterviews now st
    = filter (λ i, Interview.status i = "scheduled" ∧ now ≤ Interview.scheduledAt i)
        (getAllInterviews st).
Proof.
  split; [| split].
  - intros i. unfold getUpcomingInterviews.
    rewrite orderBy_asc_Permutation, list_elem_of_filter. tauto.
  - apply orderBy_asc_sorted.
  - apply orderBy_asc_filter.
Qed.

(** ** The schedule page *)

(** For interviews read at one time [now]: the upcoming list holds exactly
    the scheduled interviews not before now, earliest first; the past list
    holds exactly the completed interviews and those before now, latest
    first; no interview is in both; and an interview is in neither exactly
    when it is not before now and its status is neither scheduled nor
    completed, as a cancelled interview still to come is. *)
Theorem schedule_lists (now : Z) (l : list InterviewWithDetails.t) :
  (∀ i, i ∈ upcomingInterviews now (Some l)
        ↔ i ∈ l ∧ InterviewWithDetails.status i = "scheduled"
          ∧ now ≤ InterviewWithDetails.scheduledAt i)
  ∧ (∀ i, i ∈ pastInterviews now (Some l)
          ↔ i ∈ l ∧ (InterviewWithDetails.status i = "completed"
                     ∨ InterviewWithDetails.scheduledAt i < now))
  ∧ (∀ i, i ∈ upcomingInterviews now (Some l) → i ∉ pastInterviews now (Some l))
  ∧ (∀ i, i ∈ l →
          ((i ∉ upcomingInterviews now (Some l)) ∧ (i ∉ pastInterviews now (Some l))
           ↔ now ≤ InterviewWithDetails.scheduledAt i
             ∧ InterviewWithDetails.status i ≠ "scheduled"
             ∧ InterviewWithDetails.status i ≠ "completed"))
  ∧ StronglySorted
      (λ a b, InterviewWithDetails.scheduledAt a ≤ InterviewWithDetails.scheduledAt b)
      (upcomingInterviews now (Some l))
  ∧ StronglySorted
      (λ a b, InterviewWithDetails.scheduledAt b ≤ InterviewWithDetails.scheduledAt a)
      (pastInterviews now (Some l)).
Proof.
  assert (∀ i, i ∈ upcomingInterviews now (Some l)
               ↔ i ∈ l ∧ InterviewWithDetails.status i = "scheduled"
                 ∧ now ≤ InterviewWithDetails.scheduledAt i) as Hup.
  { intros i. unfold upcomingInterviews.
    rewrite sort_by_Permutation, list_elem_of_filter. tauto. }
  assert (∀ i, i ∈ pastInterviews now (Some l)
               ↔ i ∈ l ∧ (InterviewWithDetails.status i = "completed"
                          ∨ InterviewWithDetails.scheduledAt i < now)) as Hpast.
  { intros i. unfold pastInterviews.
    rewrite sort_by_Permutation, list_elem_of_filter. tauto. }
  split; [done |]. split; [done |]. split; [| split; [| split]].
  - intros i Hi Hp. apply Hup in Hi as (_ & Hs & Ht).
    apply Hpast in Hp as (_ & [Hc | Hlt]); [congruence | lia].
  - intros i Hi. rewrite Hup, Hpast. split.
    + intros [Hnu Hnp].
      destruct (decide (now ≤ InterviewWithDetails.scheduledAt i)) as [Hge | Hlt].
      * split; [done |]. split; intros Hs; [apply Hnu | apply Hnp]; auto.
      * destruct Hnp. split; [done |]. right. lia.
    + intros (Hge & Hs & Hc). split; [tauto |].
      intros (_ & [? | ?]); [done | lia].
  - apply (orderBy_asc_sorted InterviewWithDetails.scheduledAt).
  - apply (orderBy_desc_sorted InterviewWithDetails.scheduledAt).
Qed.

Lemma get_interviews_interview (st : Store.t) :
  InterviewWithDetails.interview <$> get_interviews st = getAllInterviews st.
Proof.
  unfold get_interviews. rewrite <- list_fmap_compose. apply list_fmap_id.
Qed.

(** The page and the server agree: the interviews of the upcoming list the
    page computes from GET /api/interviews are those [getUpcomingInterviews]
    selects at the same time, in the same order. *)
Theorem upcomingInterviews_agree (now : Z) (st : Store.t) :
  InterviewWithDetails.interview <$> upcomingInterviews now (Some (get_interviews st))
  = getUpcomingInterviews now st.
Proof.
  unfold upcomingInterviews.
  rewrite (sort_by_filter _ _); [| intros; lia | intros; lia].
  rewrite (sort_by_sorted _ (get_interviews st)).
  - unfold getUpcomingInterviews. rewrite orderBy_asc_filter.
    fold (getAllInterviews st).
    rewrite <- get_interviews_interview.
    by rewrite (filter_fmap_comm InterviewWithDetails.interview).
  - unfold get_interviews.
    apply StronglySorted_fmap with
      (R1 := λ a b, Interview.scheduledAt a - Interview.scheduledAt b ≤ 0);
      [by intros ?? |].
    apply (sort_by_StronglySorted (λ a b, Interview.scheduledAt a - Interview.scheduledAt b));
      intros; lia.
Qed.

(** ** The recent applications *)

(** The dashboard list has ten entries, or all of them when there are
    fewer; they are applications of the table, newest first, and no
    application left out is newer than one shown. *)
Theorem get_applications_recent_newest (st : Store.t) :
  length (get_applications_recent st) = min 10 (length (Store.applications st))
  ∧ ∃ shown rest,
      shown ++ rest ≡ₚ Store.applications st
      ∧ (λ e, (RecentApplication.id e, RecentApplication.status e,
               RecentApplication.matchScore e, RecentApplication.appliedAt e))
          <$> get_applications_recent st
        = (λ a, (Application.id a, Application.status a, Application.matchScore a,
                 Application.appliedAt a)) <$> shown
      ∧ StronglySorted (λ a b, Application.appliedAt b ≤ Application.appliedAt a) shown
      ∧ ∀ a b, a ∈ shown → b ∈ rest → Application.appliedAt b ≤ Application.appliedAt a.
Proof.
  destruct (listings_complete_and_ordered st) as (_ & _ & (Hperm & Hsorted) & _).
  split.
  - unfold get_applications_recent. rewrite length_fmap, length_take.
    by rewrite (Permutation_length Hperm).
  - exists (take 10 (getAllApplications st)), (drop 10 (getAllApplications st)).
    rewrite <- (take_drop 10 (getAllApplications st)) in Hsorted.
    apply StronglySorted_app in Hsorted as (Hcross & Hshown & _).
    split; [by rewrite take_drop |]. split; [| split; [done |]].
    + unfold get_applications_recent. by rewrite <- list_fmap_compose.
    + intros a b Ha Hb. by apply Hcross.
Qed.

(** ** Maps built from rows *)

Lemma Map_by_id_other {A : Type} (id : A → string) (rows : list A)
    (m : gmap string A) (k : string) :
  k ∉ id <$> rows → foldl (λ m r, <[id r := r]> m) m rows !! k = m !! k.
Proof.
  revert m. induction rows as [| x rows IH]; intros m Hnot; [done |].
  cbn. rewrite IH by (intros Hin; apply Hnot; by right).
  apply lookup_insert_ne. intros Heq. apply Hnot. rewrite <- Heq. left.
Qed.

(** A map built from rows with distinct ids returns each row under its
    id, and nothing under an id no row has. *)
Lemma Map_by_id_lookup {A : Type} (id : A → string) (rows : list A) :
  NoDup (id <$> rows) →
  (∀ r, r ∈ rows → Map_by_id id rows !! id r = Some r)
  ∧ (∀ k, k ∉ id <$> rows → Map_by_id id rows !! k = None).
Proof.
  intros Hnd. split.
  - unfold Map_by_id. generalize (∅ : gmap string A).
    induction rows as [| x rows IH]; intros m r Hr; [by apply not_elem_of_nil in Hr |].
    cbn in Hnd. apply NoDup_cons in Hnd as [Hx Hnd]. cbn.
    apply elem_of_cons in Hr as [-> | Hr].
    + rewrite Map_by_id_other by done. apply lookup_insert_eq.
    + by apply IH.
  - intros k Hk. unfold Map_by_id. by rewrite Map_by_id_other.
Qed.

Lemma field_or_empty {A : Type} (r : A) (field : A → string) :
  field_or (Some r) field "" = field r.
Proof.
  unfold field_or, truthy. destruct (String.eqb_spec (field r) "") as [-> | _]; done.
Qed.

Lemma getCandidateById_NoDup (st : Store.t) (c : Candidate.t) :
  NoDup (Candidate.id <$> Store.candidates st) →
  c ∈ Store.candidates st →
  Map_by_id Candidate.id (getAllCandidates st) !! Candidate.id c = Some c.
Proof.
  intros Hnd Hc. apply Map_by_id_lookup.
  - unfold getAllCandidates. by rewrite orderBy_desc_Permutation.
  - unfold getAllCandidates. by rewrite orderBy_desc_Permutation.
Qed.

Lemma getJobById_NoDup (st : Store.t) (j : Job.t) :
  NoDup (Job.id <$> Store.jobs st) →
  j ∈ Store.jobs st →
  Map_by_id Job.id (getAllJobs st) !! Job.id j = Some j.
Proof.
  intros Hnd Hj. apply Map_by_id_lookup.
  - unfold getAllJobs. by rewrite orderBy_desc_Permutation.
  - unfold getAllJobs. by rewrite orderBy_desc_Permutation.
Qed.

(** ** The pipeline route *)

(** The pipeline has one card per application, newest first, carrying the
    id, status, score and date of the application; and, the ids of the
    candidates and of the jobs being distinct, the card shows the name and
    e-mail of the candidate and the title and department of the job that
    the detail route returns for the application (Unknown in place of an
    empty name, title or department). *)
Theorem pipeline_cards (st : Store.t) :
  (λ e, (ApplicationWithDetails.id e, ApplicationWithDetails.status e,
         ApplicationWithDetails.matchScore e, ApplicationWithDetails.appliedAt e))
    <$> get_applications_pipeline st
  = (λ a, (Application.id a, Application.status a, Application.matchScore a,
           Application.appliedAt a)) <$> getAllApplications st
  ∧ (NoDup (Candidate.id <$> Store.candidates st) →
     NoDup (Job.id <$> Store.jobs st) →
     ∀ i a c j,
       getAllApplications st !! i = Some a →
       get_application (Application.id a) st = Json 200 (a, c, j) →
       ∃ e, get_applications_pipeline st !! i = Some e
            ∧ ApplicationWithDetails.candidateName e
              = (if truthy (Candidate.name c) then Candidate.name c else "Unknown")
            ∧ ApplicationWithDetails.candidateEmail e = Candidate.email c
            ∧ ApplicationWithDetails.jobTitle e
              = (if truthy (Job.title j) then Job.title j else "Unknown")
            ∧ ApplicationWithDetails.jobDepartment e
              = (if truthy (Job.department j) then Job.department j else "Unknown")).
Proof.
  split.
  - unfold get_applications_pipeline. by rewrite <- list_fmap_compose.
  - intros Hndc Hndj i a c j Hi Hdetail.
    unfold get_application in Hdetail.
    destruct (getApplicationById (Application.id a) st) as [a' |]; [| discriminate].
    destruct (getCandidateById (Application.candidateId a') st) as [c' |] eqn:Hc;
      [| discriminate].
    destruct (getJobById (Application.jobId a') st) as [j' |] eqn:Hj; [| discriminate].
    injection Hdetail as -> -> ->.
    apply (head_filter_Some (λ x, Candidate.id x = Application.candidateId a)) in Hc
      as [Hcin Hcid].
    apply getJobById_Some in Hj as [Hjin Hjid].
    unfold get_applications_pipeline. rewrite list_lookup_fmap, Hi. cbn.
    eexists. split; [done |]. cbn.
    rewrite <- Hcid, <- Hjid.
    rewrite (getCandidateById_NoDup st c Hndc Hcin), (getJobById_NoDup st j Hndj Hjin).
    split; [reflexivity |]. split; [apply field_or_empty |]. split; reflexivity.
Qed.

Lemma pipeline_cards_witness :
  ∃ e, get_applications_pipeline Sample.after_jane !! 0%nat = Some e
       ∧ ApplicationWithDetails.candidateName e = "Jane Doe"
       ∧ ApplicationWithDetails.jobTitle e = "Backend Engineer".
Proof.
  assert (NoDup (Candidate.id <$> Store.candidates Sample.after_jane)) as Hc
    by (apply (bool_decide_unpack _); by vm_compute).
  assert (NoDup (Job.id <$> Store.jobs Sample.after_jane)) as Hj
    by (apply (bool_decide_unpack _); by vm_compute).
  destruct (getAllApplications Sample.after_jane !! 0%nat) as [a |] eqn:Ha;
    [| discriminate Ha].
  destruct (proj2 (pipeline_cards Sample.after_jane) Hc Hj 0%nat a Sample.jane_row
                  Sample.J1 Ha)
    as (e & He & Hname & _ & Htitle & _).
  { vm_compute in Ha. injection Ha as <-. reflexivity. }
  exists e. split; [exact He |]. split; [exact Hname | exact Htitle].
Defined.

(** The pipeline after a transition holds the cards of before with the
    status replaced on the cards of that id. *)
Lemma pipeline_after_transition (now : Z) (id status : string) (st : Store.t) :
  truthy status = true →
  get_applications_pipeline (transitionStatus now id status st).2
  ≡ₚ (λ e, if decide (ApplicationWithDetails.id e = id)
           then card_with_status status e else e)
       <$> get_applications_pipeline st.
Proof.
  intros Htruthy. rewrite transitionStatus_store, Htruthy.
  unfold get_applications_pipeline.
  change (getAllJobs (with_applications ?l st)) with (getAllJobs st).
  change (getAllCandidates (with_applications ?l st)) with (getAllCandidates st).
  unfold getAllApplications. rewrite !orderBy_desc_Permutation.
  cbn [with_applications Store.applications].
  rewrite rows_after_update_Permutation.
  rewrite <- !list_fmap_compose.
  match goal with
  | |- ?f <$> ?l ≡ₚ ?g <$> ?l => rewrite (list_fmap_ext f g l); [done |]
  end.
  intros ? a ?. cbn.
  unfold update_row. destruct (decide (Application.id a = id)); done.
Qed.

(** ** Drag and drop on the board *)

Lemma columnApplications_elem (apps : list ApplicationWithDetails.t) (c : Column.t)
    (e : ApplicationWithDetails.t) :
  c ∈ statusColumns →
  e ∈ columnApplications (Some apps) c
  ↔ e ∈ apps ∧ ApplicationWithDetails.status e = Column.key c.
Proof.
  intros Hc. rewrite columnApplications_key by (by apply list_elem_of_fmap_2).
  cbn. rewrite list_elem_of_filter. tauto.
Qed.

Lemma statusColumns_valid (c : Column.t) :
  c ∈ statusColumns → valid_status (Column.key c).
Proof.
  unfold statusColumns, valid_status, status_literals. intros Hc.
  repeat (apply elem_of_cons in Hc as [-> | Hc]; [cbn; repeat constructor |]).
  by apply not_elem_of_nil in Hc.
Qed.

(** Dropping a dragged card on a column sends one PATCH for that card with
    the key of the column, one of the six literals, and forgets the drag;
    once the server has handled it and the board is read again, the card is
    in that column and in no other, and every other card is in the column
    it was in. *)
Theorem drop_moves_card (now : Z) (appId : string) (c : Column.t) (s : DragState.t)
    (st : Store.t) :
  c ∈ statusColumns →
  truthy appId = true →
  handleDrop now (Column.key c) (handleDragStart appId s)
  = (Some (TransitionStatus now appId (Column.key c)), DragState.mk None None)
  ∧ valid_status (Column.key c)
  ∧ (∀ e, e ∈ get_applications_pipeline st →
          ApplicationWithDetails.id e = appId →
          card_with_status (Column.key c) e
          ∈ columnApplications
              (Some (get_applications_pipeline
                       (handle (TransitionStatus now appId (Column.key c)) st).2)) c)
  ∧ (∀ c' e, c' ∈ statusColumns →
             ApplicationWithDetails.id e = appId →
             e ∈ columnApplications
                   (Some (get_applications_pipeline
                            (handle (TransitionStatus now appId (Column.key c)) st).2)) c' →
             c' = c)
  ∧ (∀ c' e, c' ∈ statusColumns →
             ApplicationWithDetails.id e ≠ appId →
             e ∈ columnApplications
                   (Some (get_applications_pipeline
                            (handle (TransitionStatus now appId (Column.key c)) st).2)) c'
             ↔ e ∈ columnApplications (Some (get_applications_pipeline st)) c').
Proof.
  intros Hc Hid.
  pose proof (statusColumns_valid c Hc) as Hvalid.
  pose proof (valid_status_truthy _ Hvalid) as Htruthy.
  pose proof (pipeline_after_transition now appId _ st Htruthy) as Hperm.
  split; [unfold handleDrop, handleDragStart; cbn; by rewrite Hid |].
  split; [done |].
  cbn [handle].
  split; [| split].
  - intros e He Heid. apply columnApplications_elem; [done |]. split; [| done].
    rewrite Hperm.
    apply list_elem_of_fmap. exists e. split; [| done]. by rewrite decide_True.
  - intros c' e Hc' Heid Hin.
    apply columnApplications_elem in Hin as [Hin Hst]; [| done].
    rewrite Hperm in Hin.
    apply list_elem_of_fmap in Hin as (e0 & -> & _).
    destruct (decide (ApplicationWithDetails.id e0 = appId)) as [_ | Hne].
    + apply statusColumns_key_inj; [done | done | by rewrite <- Hst].
    + done.
  - intros c' e Hc' Hne. rewrite !columnApplications_elem by done.
    rewrite Hperm, list_elem_of_fmap. split.
    + intros [(e0 & -> & Hin) Hst].
      destruct (decide (ApplicationWithDetails.id e0 = appId)) as [Heq | _]; [| done].
      by destruct Hne.
    + intros [Hin Hst]. split; [| done]. exists e. by rewrite decide_False.
Qed.

Lemma drop_moves_card_witness :
  handleDrop 3000 "hired" (handleDragStart "a-1" (DragState.mk None None))
  = (Some (TransitionStatus 3000 "a-1" "hired"), DragState.mk None None).
Proof.
  assert (Column.mk "hired" "Hired"
            "bg-emerald-100 text-emerald-800 dark:bg-emerald-950/30 dark:text-emerald-400"
          ∈ statusColumns) as Hc by (unfold statusColumns; repeat constructor).
  exact (proj1 (drop_moves_card 3000 "a-1" _ (DragState.mk None None)
                  Sample.after_jane Hc eq_refl)).
Defined.

(** ** Moving the selected candidates to screening *)

Lemma elem_of_flat_map {A B : Type} (f : A → list B) (l : list A) (y : B) :
  y ∈ flat_map f l ↔ ∃ x, x ∈ l ∧ y ∈ f x.
Proof.
  rewrite list_elem_of_In, in_flat_map. setoid_rewrite list_elem_of_In. done.
Qed.

(** The applications listed under a candidate are the applications of the
    table that reference it, each with a job of its [jobId]. *)
Lemma elem_of_candidateApplications (c : Candidate.t) (st : Store.t)
    (a : Application.t) (j : Job.t) :
  (a, j) ∈ candidateApplications c st
  ↔ a ∈ Store.applications st ∧ Application.candidateId a = Candidate.id c
    ∧ j ∈ Store.jobs st ∧ Job.id j = Application.jobId a.
Proof.
  unfold candidateApplications. rewrite orderBy_desc_Permutation, elem_of_flat_map.
  split.
  - intros (a' & Ha' & Hin). apply list_elem_of_filter in Ha' as [Hc Ha'].
    apply list_elem_of_fmap in Hin as (j' & [= -> ->] & Hj').
    apply list_elem_of_filter in Hj' as [Hid Hj']. done.
  - intros (Ha & Hc & Hj & Hid). exists a. split.
    + by apply list_elem_of_filter.
    + apply list_elem_of_fmap. exists j. split; [done |]. by apply list_elem_of_filter.
Qed.

Lemma elem_of_screeningApplicationIds (cs : list CandidateWithApplications.t)
    (selected : gset string) (id : string) :
  id ∈ screeningApplicationIds cs selected
  ↔ ∃ c app, c ∈ cs ∧ candidate_id c ∈ selected
             ∧ app ∈ CandidateWithApplications.applications c
             ∧ Application.status app.1 = "applied" ∧ Application.id app.1 = id.
Proof.
  unfold screeningApplicationIds. rewrite elem_of_flat_map. split.
  - intros (c & Hc & Hin). destruct (decide (candidate_id c ∈ selected)) as [Hsel |];
      [| by apply not_elem_of_nil in Hin].
    apply list_elem_of_fmap in Hin as (a & -> & Ha).
    apply list_elem_of_filter in Ha as [Hst Ha].
    apply list_elem_of_fmap in Ha as (app & -> & Happ).
    by exists c, app.
  - intros (c & app & Hc & Hsel & Happ & Hst & <-). exists c. split; [done |].
    rewrite decide_True by done. apply list_elem_of_fmap_2.
    apply list_elem_of_filter. split; [done |]. by apply list_elem_of_fmap_2.
Qed.

(** The rows after the requests of a move, one id after the other. *)
Lemma run_moveToScreening (clock : string → Z) (ids : list string) (st : Store.t) :
  run (moveToScreening clock ids) st
  = with_applications
      (foldl (λ rows id, rows_after_update (clock id) id "screening" rows)
         (Store.applications st) ids) st.
Proof.
  revert st. induction ids as [| id ids IH]; intros st; [by destruct st |].
  cbn [moveToScreening fmap list_fmap]. rewrite run_cons. cbn [handle].
  fold (moveToScreening clock ids). rewrite IH, transitionStatus_store. reflexivity.
Qed.

Lemma rows_after_moves (clock : string → Z) (ids : list string)
    (rows : list Application.t) (a' : Application.t) :
  a' ∈ foldl (λ rows id, rows_after_update (clock id) id "screening" rows) rows ids →
  ∃ a, a ∈ rows
       ∧ (Application.id a ∈ ids → Application.status a' = "screening")
       ∧ (Application.id a ∉ ids → a' = a).
Proof.
  revert rows. induction ids as [| id ids IH]; intros rows Hin.
  - exists a'. split; [done |]. split; [| done].
    intros H. by apply not_elem_of_nil in H.
  - cbn in Hin. apply IH in Hin as (a1 & Ha1 & Hyes & Hno).
    rewrite rows_after_update_Permutation in Ha1.
    apply list_elem_of_fmap in Ha1 as (a & -> & Ha). exists a. split; [done |].
    assert (Application.id (update_row (clock id) id "screening" a) = Application.id a)
      as Hsame by (unfold update_row; by destruct (decide _)).
    rewrite Hsame in Hyes, Hno.
    destruct (decide (Application.id a ∈ ids)) as [Hids | Hids].
    + split; [auto |]. intros Hnot. destruct Hnot. by right.
    + rewrite (Hno Hids). unfold update_row.
      destruct (decide (Application.id a = id)) as [Heq | Hne].
      * split; [done |]. intros Hnot. destruct Hnot. rewrite Heq. left.
      * split; [| done]. intros Hin'. apply elem_of_cons in Hin' as [? | ?]; done.
Qed.

Lemma rows_after_moves_untouched (clock : string → Z) (ids : list string)
    (rows : list Application.t) (a : Application.t) :
  a ∈ rows → Application.id a ∉ ids →
  a ∈ foldl (λ rows id, rows_after_update (clock id) id "screening" rows) rows ids.
Proof.
  revert rows. induction ids as [| id ids IH]; intros rows Ha Hnot; [done |].
  cbn. apply IH; [| intros Hin; apply Hnot; by right].
  rewrite rows_after_update_Permutation.
  apply list_elem_of_fmap. exists a. split; [| done].
  unfold update_row. rewrite decide_False; [done |].
  intros Heq. apply Hnot. rewrite Heq. left.
Qed.

(** When the page hands ids to the mutation, they are the ids of the
    applied applications of the selected candidates, and there is at least
    one; after the server has handled the requests, whatever its clock
    reads, no selected candidate of the list read again has an application
    still applied, and every application whose id was not sent is as it
    was. *)
Theorem move_to_screening (clock : string → Z) (selected : gset string)
    (ids : list string) (st : Store.t) :
  handleMoveToScreening (Some (getAllCandidatesWithApplications st)) selected = Some ids →
  ids = screeningApplicationIds (getAllCandidatesWithApplications st) selected
  ∧ ids ≠ []
  ∧ (∀ id, id ∈ ids →
           ∃ a, a ∈ Store.applications st ∧ Application.id a = id
                ∧ Application.status a = "applied"
                ∧ Application.candidateId a ∈ selected)
  ∧ (∀ c, c ∈ getAllCandidatesWithApplications (run (moveToScreening clock ids) st) →
          candidate_id c ∈ selected → ¬ hasApplied c)
  ∧ (∀ a, a ∈ Store.applications st → Application.id a ∉ ids →
          a ∈ Store.applications (run (moveToScreening clock ids) st)).
Proof.
  intros Hmove. unfold handleMoveToScreening in Hmove.
  destruct (decide (size selected = 0%nat)); [discriminate |].
  destruct (screeningApplicationIds (getAllCandidatesWithApplications st) selected)
    as [| id0 ids0] eqn:Hids; [discriminate |].
  injection Hmove as <-. rewrite <- Hids. split; [done |].
  split; [by rewrite Hids |].
  pose proof (getAllCandidatesWithApplications_Permutation st) as Hperm.
  split; [| split].
  - intros id Hid. apply elem_of_screeningApplicationIds in Hid
      as (c & [a j] & Hc & Hsel & Happ & Hst & Hida).
    rewrite Hperm in Hc. apply list_elem_of_fmap in Hc as (cand & -> & _).
    apply elem_of_candidateApplications in Happ as (Ha & Hcid & _).
    exists a. cbn in *. unfold candidate_id in Hsel. cbn in Hsel.
    by rewrite Hcid.
  - intros c Hc Hsel Happlied.
    rewrite getAllCandidatesWithApplications_Permutation in Hc.
    apply list_elem_of_fmap in Hc as (cand & -> & Hcand).
    apply Exists_exists in Happlied as ([a' j] & Happ & Hst).
    apply elem_of_candidateApplications in Happ as (Ha' & Hcid & Hj & Hjid).
    rewrite run_moveToScreening in Ha', Hj, Hcand. cbn in Ha', Hj, Hcand, Hst.
    apply rows_after_moves in Ha' as (a & Ha & Hyes & Hno).
    destruct (decide (Application.id a
                        ∈ screeningApplicationIds (getAllCandidatesWithApplications st)
                            selected)) as [Hin | Hnot].
    + rewrite (Hyes Hin) in Hst. discriminate Hst.
    + pose proof (Hno Hnot) as ->. destruct Hnot.
      apply elem_of_screeningApplicationIds.
      exists (withApplications st cand), (a, j). split.
      * rewrite Hperm. by apply list_elem_of_fmap_2.
      * split; [done |]. split; [| done]. by apply elem_of_candidateApplications.
  - intros a Ha Hnot. rewrite run_moveToScreening. cbn.
    by apply rows_after_moves_untouched.
Qed.

Lemma move_to_screening_witness :
  ["a-3"; "a-1"]
  = screeningApplicationIds (getAllCandidatesWithApplications Sample.three_candidates)
      {["c-b"]}.
Proof.
  assert (handleMoveToScreening
            (Some (getAllCandidatesWithApplications Sample.three_candidates)) {["c-b"]}
          = Some ["a-3"; "a-1"]) as Hmove by (by vm_compute).
  exact (proj1 (move_to_screening (λ _, 5000) {["c-b"]} ["a-3"; "a-1"]
                  Sample.three_candidates Hmove)).
Defined.

(** ** The select-all box *)

Lemma size_list_to_set_le (l : list string) :
  (size (list_to_set l : gset string) ≤ length l)%nat.
Proof.
  induction l as [| x l IH]; [by rewrite list_to_set_nil, size_empty |].
  rewrite list_to_set_cons, size_union_alt, size_singleton. cbn.
  assert (size (list_to_set l ∖ {[x]} : gset string) ≤ size (list_to_set l : gset string))%nat
    as Hle by (apply subseteq_size; intros y Hy; by apply elem_of_difference in Hy as [? _]).
  lia.
Qed.

(** Select-all does nothing while the list loads; otherwise, unless as many
    ids are selected as there are candidates, it selects the candidates that
    have an applied application and only those.  When some candidate has
    none, a second click on the box, then shown checked, selects the same
    candidates again instead of clearing the selection; when all have one
    (their ids distinct), the second click clears it. *)
Theorem select_all_box (cs : list CandidateWithApplications.t) (selected : gset string) :
  handleSelectAll None selected = selected
  ∧ (size selected ≠ length cs →
     handleSelectAll (Some cs) selected
       = list_to_set (candidate_id <$> eligibleCandidates cs)
     ∧ ∀ id, id ∈ handleSelectAll (Some cs) selected
             ↔ ∃ c, c ∈ cs ∧ hasApplied c ∧ candidate_id c = id)
  ∧ ((∃ c, c ∈ cs ∧ ¬ hasApplied c) →
     handleSelectAll (Some cs) (list_to_set (candidate_id <$> eligibleCandidates cs))
       = list_to_set (candidate_id <$> eligibleCandidates cs)
     ∧ (NoDup (candidate_id <$> cs) → eligibleCandidates cs ≠ [] →
        selectAll_checked (Some cs)
          (list_to_set (candidate_id <$> eligibleCandidates cs)) = true))
  ∧ (NoDup (candidate_id <$> cs) → Forall hasApplied cs →
     handleSelectAll (Some cs) (list_to_set (candidate_id <$> eligibleCandidates cs)) = ∅).
Proof.
  assert (NoDup (candidate_id <$> cs) →
          size (list_to_set (candidate_id <$> eligibleCandidates cs) : gset string)
          = length (eligibleCandidates cs)) as Hsize.
  { intros Hnd. rewrite size_list_to_set, length_fmap; [done |].
    unfold eligibleCandidates. clear -Hnd.
    induction cs as [| c cs IH]; [constructor |].
    cbn in Hnd. apply NoDup_cons in Hnd as [Hc Hnd].
    rewrite filter_cons. destruct (decide (hasApplied c)); [| by apply IH].
    cbn. apply NoDup_cons. split; [| by apply IH].
    intros Hin. apply Hc. apply list_elem_of_fmap in Hin as (c' & -> & Hc').
    apply list_elem_of_filter in Hc' as [_ Hc']. by apply list_elem_of_fmap_2. }
  split; [done |]. split; [| split].
  - intros Hne. unfold handleSelectAll. rewrite decide_False by done.
    split; [done |]. intros id. rewrite elem_of_list_to_set, list_elem_of_fmap.
    unfold eligibleCandidates. split.
    + intros (c & -> & Hc). apply list_elem_of_filter in Hc as [Happlied Hc].
      by exists c.
    + intros (c & Hc & Happlied & <-). exists c. split; [done |].
      by apply list_elem_of_filter.
  - intros (c & Hc & Hnot).
    assert (length (eligibleCandidates cs) < length cs)%nat as Hlt
      by (by apply (length_filter_lt _ _ c)).
    split.
    + unfold handleSelectAll. rewrite decide_False; [done |].
      pose proof (size_list_to_set_le (candidate_id <$> eligibleCandidates cs)) as Hle.
      rewrite length_fmap in Hle. lia.
    + intros Hnd Hsome. unfold selectAll_checked, eligibleCandidatesCount.
      rewrite (Hsize Hnd), bool_decide_eq_true_2 by done.
      apply bool_decide_eq_true_2. destruct (eligibleCandidates cs); [done | cbn; lia].
  - intros Hnd Hall. unfold handleSelectAll.
    rewrite decide_True; [done |]. rewrite (Hsize Hnd). unfold eligibleCandidates.
    clear -Hall. induction Hall as [| c cs Hc Hall IH]; [done |].
    rewrite filter_cons, decide_True by done. cbn. by rewrite IH.
Qed.

Lemma select_all_box_witness :
  handleSelectAll (Some (getAllCandidatesWithApplications Sample.three_candidates))
    (list_to_set
       (candidate_id
          <$> eligibleCandidates (getAllCandidatesWithApplications Sample.three_candidates)))
  = list_to_set
      (candidate_id
         <$> eligibleCandidates (getAllCandidatesWithApplications Sample.three_candidates)).
Proof.
  apply (proj1 (proj2 (proj2 (select_all_box
                                (getAllCandidatesWithApplications Sample.three_candidates)
                                ∅)))).
  exists (withApplications Sample.three_candidates Sample.cy). split.
  - apply (list_elem_of_lookup_2 _ 2). reflexivity.
  - intros Happlied. apply Exists_exists in Happlied as (app & Hin & _).
    by apply not_elem_of_nil in Hin.
Defined.

(** ** The requirements of the job form *)

Lemma removeRequirement_keep (t k : nat) (l : list string) :
  (t < k)%nat →
  snd <$> filter (λ ix : nat * string, ix.1 ≠ t) (zip (seq k (length l)) l) = l.
Proof.
  revert k. induction l as [| x l IH]; intros k Hlt; [done |].
  cbn [length seq zip zip_with]. rewrite filter_cons, decide_True by (cbn; lia).
  cbn. f_equal. apply IH. lia.
Qed.

Lemma removeRequirement_from (k i : nat) (l : list string) :
  snd <$> filter (λ ix : nat * string, ix.1 ≠ (k + i)%nat) (zip (seq k (length l)) l)
  = delete i l.
Proof.
  revert k i. induction l as [| x l IH]; intros k i; [by destruct i |].
  cbn [length seq zip zip_with]. rewrite filter_cons. destruct i as [| i].
  - rewrite decide_False by (cbn; lia). cbn. apply removeRequirement_keep. lia.
  - rewrite decide_True by (cbn; lia). cbn. f_equal.
    replace (k + S i)%nat with (S k + i)%nat by lia. apply IH.
Qed.

(** Removing a requirement by its index deletes that one entry and keeps
    the others in order; an index past the end removes nothing; and a
    requirement just added (the trimmed input, when it is not blank) is
    removed again by the index it was added at, while a blank input adds
    nothing and stays in the field. *)
Theorem requirements_add_remove (trim : string → string) (input : string)
    (index : nat) (requirements : list string) :
  removeRequirement index requirements = delete index requirements
  ∧ (length requirements ≤ index → removeRequirement index requirements = requirements)%nat
  ∧ (truthy (trim input) = true →
     addRequirement trim input requirements = (requirements ++ [trim input], "")
     ∧ removeRequirement (length requirements)
         (addRequirement trim input requirements).1 = requirements)
  ∧ (truthy (trim input) = false →
     addRequirement trim input requirements = (requirements, input)).
Proof.
  assert (∀ i l, removeRequirement i l = delete i l) as Hdel
    by (intros i l; apply (removeRequirement_from 0 i l)).
  split; [done |]. split; [| split].
  - intros Hle. rewrite Hdel. revert index Hle.
    induction requirements as [| x l IH]; intros [| i] Hle; cbn in *; try done; try lia.
    f_equal. apply IH. lia.
  - intros Htrim. unfold addRequirement. rewrite Htrim. split; [done |].
    cbn [fst]. rewrite Hdel, delete_take_drop, take_app_length.
    rewrite drop_ge; [apply app_nil_r |]. rewrite length_app. cbn. lia.
  - intros Htrim. unfold addRequirement. by rewrite Htrim.
Qed.

Lemma requirements_add_remove_witness :
  removeRequirement 1 (addRequirement (λ s, s) "SQL" ["TypeScript"]).1 = ["TypeScript"].
Proof.
  exact (proj2 (proj1 (proj2 (proj2 (requirements_add_remove (λ s, s) "SQL" 0
                                       ["TypeScript"])))
                  eq_refl)).
Defined.

(** ** The file filter and the extractors *)

Lemma lower_ascii_idem (c : ascii) : lower_ascii (lower_ascii c) = lower_ascii c.
Proof. destruct c as [[] [] [] [] [] [] [] []]; reflexivity. Qed.

Lemma toLowerCase_idem (s : string) : toLowerCase (toLowerCase s) = toLowerCase s.
Proof. induction s as [| c s IH]; [done |]. cbn. by rewrite lower_ascii_idem, IH. Qed.

(** The filter looks at the extension without regard to case and lets
    through exactly the files the handler then reads with one of its two
    extractors: for a file let through, the text is what the PDF extractor
    returns or what the DOCX extractor returns or throws, never the empty
    text of the handler's third case.  A file held back by the filter, and
    a file let through that is larger than the limit, never reach the
    handler: the request is answered 500 with the error page of Express,
    not with a JSON body of the handler, and nothing is written; a file let
    through and below the limit is handed to the handler. *)
Theorem fileFilter_selects_extractor (env : Env.t) (f : UploadedFile.t) :
  (fileFilter f = true
   ↔ toLowerCase (UploadedFile.extname f) = ".pdf"
     ∨ toLowerCase (UploadedFile.extname f) = ".docx")
  ∧ fileFilter (UploadedFile.mk (UploadedFile.uniqueSuffix f)
                  (toLowerCase (UploadedFile.extname f)) (UploadedFile.size f))
    = fileFilter f
  ∧ (fileFilter f = true →
     (toLowerCase (UploadedFile.extname f) = ".pdf"
      ∧ extractResumeText env f = Ok (extractTextFromPDF env (UploadedFile.path f)))
     ∨ (toLowerCase (UploadedFile.extname f) = ".docx"
        ∧ extractResumeText env f = extractTextFromDOCX env (UploadedFile.path f)))
  ∧ (fileFilter f = false →
     ∀ req st, UploadRequest.file req = Some f →
               submit env req st
               = (Response.mk 500 (ErrorPage "Only PDF and DOCX files are allowed"), st))
  ∧ (fileFilter f = true → fileSize < UploadedFile.size f →
     ∀ req st, UploadRequest.file req = Some f →
               submit env req st = (Response.mk 500 (ErrorPage "File too large"), st))
  ∧ (fileFilter f = true → UploadedFile.size f < fileSize →
     ∀ req st, UploadRequest.file req = Some f →
               submit env req st = upload_handler env req st).
Proof.
  assert (fileFilter f = true
          ↔ toLowerCase (UploadedFile.extname f) = ".pdf"
            ∨ toLowerCase (UploadedFile.extname f) = ".docx") as Hiff.
  { unfold fileFilter, allowedTypes. rewrite bool_decide_eq_true.
    rewrite !elem_of_cons. split; [| tauto].
    intros [? | [? | Hnil]]; [tauto | tauto | by apply not_elem_of_nil in Hnil]. }
  split; [done |]. split; [| split; [| split; [| split]]].
  - unfold fileFilter. cbn. by rewrite toLowerCase_idem.
  - intros Hok. apply Hiff in Hok as [Hpdf | Hdocx]; [left | right].
    + split; [done |]. unfold extractResumeText. by rewrite Hpdf.
    + split; [done |]. unfold extractResumeText. by rewrite Hdocx.
  - intros Hno req st Hfile. unfold submit. by rewrite Hfile, Hno.
  - intros Hok Hbig req st Hfile. unfold submit. rewrite Hfile, Hok.
    by rewrite (proj2 (Z.ltb_ge _ _)) by lia.
  - intros Hok Hsmall req st Hfile. unfold submit. rewrite Hfile, Hok.
    by rewrite (proj2 (Z.ltb_lt _ _)) by lia.
Qed.

Lemma fileFilter_selects_extractor_witness :
  extractResumeText (Sample.env_unreadable 1000 "c-1" "a-1" 85) Sample.docx
  = Throw "Could not find the body element"
  ∧ submit (Sample.env_scoring 1000 "c-1" "a-1" 85) (Sample.jane "J1" Sample.txt)
      Sample.jobs_only
    = (Response.mk 500 (ErrorPage "Only PDF and DOCX files are allowed"), Sample.jobs_only)
  ∧ submit (Sample.env_scoring 1000 "c-1" "a-1" 85) (Sample.jane "J1" Sample.big_pdf)
      Sample.jobs_only
    = (Response.mk 500 (ErrorPage "File too large"), Sample.jobs_only).
Proof.
  split; [| split].
  - destruct (proj1 (proj2 (proj2 (fileFilter_selects_extractor
                                     (Sample.env_unreadable 1000 "c-1" "a-1" 85)
                                     Sample.docx))) eq_refl)
      as [[Hpdf _] | [_ Hdocx]]; [discriminate Hpdf | exact Hdocx].
  - exact (proj1 (proj2 (proj2 (proj2 (fileFilter_selects_extractor
                                         (Sample.env_scoring 1000 "c-1" "a-1" 85)
                                         Sample.txt))))
             eq_refl (Sample.jane "J1" Sample.txt) Sample.jobs_only eq_refl).
  - exact (proj1 (proj2 (proj2 (proj2 (proj2 (fileFilter_selects_extractor
                                         (Sample.env_scoring 1000 "c-1" "a-1" 85)
                                         Sample.big_pdf)))))
             eq_refl eq_refl (Sample.jane "J1" Sample.big_pdf) Sample.jobs_only eq_refl).
Defined.

(** ** Reading back what a submit reports *)

Lemma createApplication_id (uuid : string) (now : Z) (ins : InsertApplication.t)
    (st st' : Store.t) (a : Application.t) :
  createApplication uuid now ins st = Ok (a, st') →
  Application.id a = uuid ∧ Application.appliedAt a = now.
Proof.
  unfold createApplication. intros H.
  repeat (match type of H with (if ?b then _ else _) = _ =>
            destruct b; [discriminate |] end).
  by injection H as <- _.
Qed.

(** What a 201 reports is what was written. *)
Lemma submit_201_inv (env : Env.t) (req : UploadRequest.t) (st : Store.t)
    (c : Candidate.t) (a : Application.t) (an : ResumeAnalysis.t) :
  (submit env req st).1 = Response.mk 201 (UploadBody c a an) →
  c ∈ Store.candidates (submit env req st).2
  ∧ Candidate.email c = UploadRequest.email req
  ∧ Store.applications (submit env req st).2 = Store.applications st ++ [a]
  ∧ Application.id a = Env.uuid_application env
  ∧ Application.candidateId a = Candidate.id c
  ∧ Application.jobId a = UploadRequest.jobId req
  ∧ Application.status a = "applied"
  ∧ is_Some (getJobById (UploadRequest.jobId req) (submit env req st).2).
Proof.
  unfold submit, upload_handler.
  repeat (case_match; simplify_eq/=; try done);
    repeat match goal with
    | H : createCandidate _ _ _ _ = Ok _ |- _ =>
      apply createCandidate_inv in H as (-> & ? & ?)
    | H : createApplication _ _ _ _ = Ok _ |- _ =>
      let Hid := fresh "Hid" in
      pose proof (createApplication_id _ _ _ _ _ _ H) as [Hid _];
      apply createApplication_inv in H as (-> & ? & ? & ? & ? & ? & ?)
    | H : getCandidateByEmail _ _ = Some _ |- _ =>
      apply getCandidateByEmail_Some in H as [? ?]
    end; simplify_eq/=; intros [= <- <- <-]; cbn;
    repeat split; try done; try (by eexists);
    try (apply elem_of_app; right; left).
Qed.

(** A submit answered 201 can be read back: provided the id drawn for the
    application is not in use and no two candidates share an id, the detail
    route returns, under the id of the reported application, that
    application with the reported candidate and the job of the request. *)
Theorem submit_then_get_application (env : Env.t) (req : UploadRequest.t) (st : Store.t)
    (c : Candidate.t) (a : Application.t) (an : ResumeAnalysis.t) :
  (submit env req st).1 = Response.mk 201 (UploadBody c a an) →
  Env.uuid_application env ∉ Application.id <$> Store.applications st →
  NoDup (Candidate.id <$> Store.candidates (submit env req st).2) →
  ∃ j, get_application (Application.id a) (submit env req st).2 = Json 200 (a, c, j)
       ∧ Job.id j = UploadRequest.jobId req
       ∧ Candidate.email c = UploadRequest.email req
       ∧ Application.status a = "applied".
Proof.
  intros H201 Hfresh Hnd.
  destruct (submit_201_inv env req st c a an H201)
    as (Hc & Hemail & Happs & Hid & Hcid & Hjid & Hstatus & [j Hj]).
  exists j. unfold get_application.
  assert (getApplicationById (Application.id a) (submit env req st).2 = Some a) as ->.
  { unfold getApplicationById. rewrite Happs.
    apply (head_filter_snoc (λ b, Application.id b = Application.id a)); [| done].
    destruct (head (filter _ (Store.applications st))) as [b |] eqn:Hb; [| done].
    apply (head_filter_Some (λ b, Application.id b = Application.id a)) in Hb as [Hb Hbid].
    destruct Hfresh. rewrite <- Hid, <- Hbid. by apply list_elem_of_fmap_2. }
  assert (getCandidateById (Application.candidateId a) (submit env req st).2 = Some c) as ->.
  { rewrite Hcid. by apply (head_filter_NoDup Candidate.id). }
  rewrite Hjid, Hj. apply getJobById_Some in Hj as [_ Hj]. done.
Qed.

Lemma submit_then_get_application_witness :
  ∃ c a j,
    get_application "a-2"
      (submit (Sample.env_scoring 2000 "c-2" "a-2" 70) (Sample.jane "J2" Sample.pdf)
         Sample.after_jane).2 = Json 200 (a, c, j)
    ∧ Job.id j = "J2" ∧ Candidate.email c = "jane@x.com".
Proof.
  destruct (submit (Sample.env_scoring 2000 "c-2" "a-2" 70) (Sample.jane "J2" Sample.pdf)
              Sample.after_jane).1 as [code [msg | c a an | a | msg]] eqn:Hresp;
    try discriminate Hresp.
  assert (code = 201) as -> by (vm_compute in Hresp; by injection Hresp as <- _).
  destruct (submit_then_get_application _ _ _ c a an Hresp) as (j & Hget & Hj & Hc & _).
  - apply (bool_decide_unpack _). by vm_compute.
  - apply (bool_decide_unpack _). by vm_compute.
  - exists c, a, j. split; [| done].
    assert (Application.id a = "a-2") as Hid
      by (vm_compute in Hresp; by injection Hresp as _ <- _).
    rewrite Hid in Hget. exact Hget.
Defined.

(** ** The further properties at the sample data *)

(** A submit for a job that does not exist is answered 404 and adds no
    application. *)
Lemma submit_creates_application_iff_201_witness :
  Store.applications
    (submit (Sample.env_scoring 1000 "c-1" "a-1" 85) (Sample.jane "J9" Sample.pdf)
       Sample.jobs_only).2 = [].
Proof.
  apply (proj1 (proj2 (submit_creates_application_iff_201
                         (Sample.env_scoring 1000 "c-1" "a-1" 85)
                         (Sample.jane "J9" Sample.pdf) Sample.jobs_only))).
  vm_compute. intros [=].
Defined.

(** At time 5000 the cancelled interview of time 8000 is in neither list of
    the schedule page. *)
Lemma schedule_lists_witness :
  ∃ i, get_interviews Sample2.with_interviews !! 2%nat = Some i
       ∧ InterviewWithDetails.status i = "cancelled"
       ∧ (i ∉ upcomingInterviews 5000 (Some (get_interviews Sample2.with_interviews)))
       ∧ (i ∉ pastInterviews 5000 (Some (get_interviews Sample2.with_interviews))).
Proof.
  destruct (get_interviews Sample2.with_interviews !! 2%nat) as [i |] eqn:Hi;
    [| by vm_compute in Hi].
  exists i. split; [done |].
  assert (InterviewWithDetails.status i = "cancelled"
          ∧ InterviewWithDetails.scheduledAt i = 8000) as [Hs Ht]
    by (vm_compute in Hi; by injection Hi as <-).
  split; [done |].
  apply (proj2 (proj1 (proj2 (proj2 (proj2
           (schedule_lists 5000 (get_interviews Sample2.with_interviews)))))
           i (list_elem_of_lookup_2 _ _ _ Hi))).
  rewrite Hs, Ht. repeat split; [lia | done | done].
Defined.

(** With four applications in the table the dashboard shows all four, the
    one applied at 800 first. *)
Lemma get_applications_recent_newest_witness :
  length (get_applications_recent Sample.three_candidates) = 4%nat
  ∧ RecentApplication.appliedAt <$> get_applications_recent Sample.three_candidates
    = [800; 700; 500; 400].
Proof.
  split.
  - apply (proj1 (get_applications_recent_newest Sample.three_candidates)).
  - by vm_compute.
Defined.
